(** * A shallow embedding of the single-file agent ([main.py])

    The development follows the source top-down:

    - [PyStr]: the operations of Python's [str] that the agent uses
      ([in], [str.replace], [str.join], the newline translation of text-mode
      files).  A Python [str] is held as its UTF-8 bytes in a Rocq [string];
      substring search, replacement and ordering on well-formed UTF-8 agree
      with the same operations on code points.
    - [PosixPath]: [os.path.join] and [os.path.dirname] as [posixpath]
      defines them.
    - [Fs]: a POSIX directory tree, path resolution, and the calls of [os]
      and [open] the tools make, each returning or raising.
    - [Agent]: [AIAgent._read_file], [_list_files], [_edit_file],
      [_execute_tool] and [chat], with the transcript, the file system and a
      trace of the calls made.

    Modelling boundaries: POSIX as Linux has it ([os.sep] is "/",
    [os.linesep] is LF, a name of more than [NAME_MAX] = 255 bytes and a
    path of [PATH_MAX] = 4096 bytes or more are refused, and so is a path
    holding NUL), no permissions, no symbolic links, every node is a
    directory or a regular file holding valid UTF-8 text, tool arguments
    are strings as every tool schema of [_setup_tools] declares,
    exceptions derive from [Exception], and nothing runs out (disk space,
    file descriptors, memory).  The interpreter is CPython with its
    recursion limit of 1000 frames, started as [python main.py].  The
    records that [logging] appends to [agent.log] are left out: the tree
    of [Fs] stands for the files the tools work on, and no statement below
    speaks of the log. *)

From stdpp Require Import gmap strings list fin_maps sorting.
From Stdlib Require Import Ascii.

(** ** Python exceptions and the returning-or-raising outcome of a call *)

Inductive exn :=
| FileNotFoundError (filename : string)
| IsADirectoryError (filename : string)
| NotADirectoryError (filename : string)
| FileExistsError (filename : string)
| FileNameTooLong (filename : string)
| ValueError (msg : string)
| RecursionError (msg : string)
| KeyError (key : string)
| AttributeError (msg : string)
| APIError (msg : string).

Inductive outcome (A : Type) :=
| Returns (a : A)
| Raises (e : exn).
Arguments Returns {A} a.
Arguments Raises {A} e.

(** ** Python [str] *)

Module PyStr.

Definition LF : ascii := ascii_of_nat 10.
Definition CR : ascii := ascii_of_nat 13.
Definition nl : string := String LF "".

(** [if s:] -- a string is truthy when it is not empty. *)
Definition truthy (s : string) : bool :=
  match s with "" => false | String _ _ => true end.

(** [s.startswith(p)] *)
Fixpoint startswith (p s : string) : bool :=
  match p, s with
  | "", _ => true
  | String a p', String b s' => if decide (a = b) then startswith p' s' else false
  | String _ _, "" => false
  end.

(** [old in s] *)
Fixpoint contains (old s : string) : bool :=
  startswith old s ||
  match s with
  | "" => false
  | String _ s' => contains old s'
  end.

(** [s.replace(old, new)] for a non-empty [old]: scan from the left; at an
    occurrence of [old] emit [new] and resume after the occurrence
    ([skip] counts the characters of the occurrence still to pass over). *)
Fixpoint replace_go (old new : string) (skip : nat) (s : string) : string :=
  match s with
  | "" => ""
  | String c s' =>
      match skip with
      | S k => replace_go old new k s'
      | O =>
          if startswith old s
          then new +:+ replace_go old new (String.length old - 1) s'
          else String c (replace_go old new 0 s')
      end
  end.

(** An empty [old] matches before every character and at the end. *)
Fixpoint intersperse (new s : string) : string :=
  match s with
  | "" => new
  | String c s' => new +:+ String c (intersperse new s')
  end.

Definition replace (old new s : string) : string :=
  if truthy old then replace_go old new 0 s else intersperse new s.

(** [sep.join(items)] *)
Fixpoint join (sep : string) (items : list string) : string :=
  match items with
  | [] => ""
  | [x] => x
  | x :: rest => x +:+ sep +:+ join sep rest
  end.

(** Reading a file opened with [open(path, "r", encoding="utf-8")]:
    [newline] is left at [None], so universal newlines are on and the
    line endings CR LF and CR are returned as LF. *)
Fixpoint universal_newlines (s : string) : string :=
  match s with
  | "" => ""
  | String c s' =>
      if decide (c = CR) then
        match s' with
        | String d s'' =>
            if decide (d = LF) then String LF (universal_newlines s'')
            else String LF (universal_newlines s')
        | "" => String LF ""
        end
      else String c (universal_newlines s')
  end.

(** The character NUL, which no path may hold. *)
Definition NUL : ascii := ascii_of_nat 0.

Fixpoint has_char (a : ascii) (s : string) : bool :=
  match s with
  | "" => false
  | String c s' => bool_decide (c = a) || has_char a s'
  end.

Definition has_nul (s : string) : bool := has_char NUL s.

(** [repr(s)]: the text between quotes, single ones unless the text holds
    a single quote and no double quote; the quote in use and the backslash
    are escaped, and so are the ASCII control characters.  Characters
    beyond ASCII are taken to be printable, which they are but for a few
    separators and format characters. *)
Definition single_quote : ascii := ascii_of_nat 39.
Definition double_quote : ascii := ascii_of_nat 34.
Definition backslash : ascii := ascii_of_nat 92.

Definition hex_digit (n : nat) : ascii :=
  match n with
  | 0 => "0" | 1 => "1" | 2 => "2" | 3 => "3" | 4 => "4" | 5 => "5"
  | 6 => "6" | 7 => "7" | 8 => "8" | 9 => "9" | 10 => "a" | 11 => "b"
  | 12 => "c" | 13 => "d" | 14 => "e" | _ => "f"
  end%char.

Definition repr_char (quote c : ascii) : string :=
  let n := nat_of_ascii c in
  if bool_decide (c = quote) || bool_decide (c = backslash)
  then String backslash (String c "")
  else if n =? 9 then String backslash "t"
  else if n =? 10 then String backslash "n"
  else if n =? 13 then String backslash "r"
  else if (n <? 32) || (n =? 127)
  then String backslash
         (String "x" (String (hex_digit (n / 16)) (String (hex_digit (n mod 16)) "")))
  else String c "".

Fixpoint repr_body (quote : ascii) (s : string) : string :=
  match s with
  | "" => String quote ""
  | String c s' => repr_char quote c +:+ repr_body quote s'
  end.

Definition repr (s : string) : string :=
  let quote :=
    if has_char single_quote s && negb (has_char double_quote s)
    then double_quote else single_quote in
  String quote (repr_body quote s).

(** [str(e)] *)
Definition str_exn (e : exn) : string :=
  match e with
  | FileNotFoundError f => "[Errno 2] No such file or directory: " +:+ repr f
  | IsADirectoryError f => "[Errno 21] Is a directory: " +:+ repr f
  | NotADirectoryError f => "[Errno 20] Not a directory: " +:+ repr f
  | FileExistsError f => "[Errno 17] File exists: " +:+ repr f
  | FileNameTooLong f => "[Errno 36] File name too long: " +:+ repr f
  | ValueError m => m
  | RecursionError m => m
  | KeyError k => repr k
  | AttributeError m => m
  | APIError m => m
  end.

End PyStr.


(** ** [posixpath] *)

Module PosixPath.

Definition sep : ascii := "/"%char.

Definition is_sep (c : ascii) : bool := bool_decide (c = sep).

(** [p.endswith("/")] *)
Fixpoint endswith_sep (p : string) : bool :=
  match p with
  | "" => false
  | String c "" => is_sep c
  | String _ p' => endswith_sep p'
  end.

(** [os.path.join(a, b)] *)
Definition join (a b : string) : string :=
  if PyStr.startswith "/" b then b
  else if negb (PyStr.truthy a) || endswith_sep a then a +:+ b
  else a +:+ "/" +:+ b.

Fixpoint has_sep (p : string) : bool :=
  match p with
  | "" => false
  | String c p' => is_sep c || has_sep p'
  end.

(** [p[:p.rfind("/") + 1]]: the longest prefix of [p] that ends in a
    separator, empty when [p] has none. *)
Fixpoint head_upto_sep (p : string) : string :=
  match p with
  | "" => ""
  | String c p' =>
      if has_sep p' then String c (head_upto_sep p')
      else if is_sep c then "/" else ""
  end.

(** [head == "/" * len(head)] *)
Fixpoint all_sep (p : string) : bool :=
  match p with
  | "" => true
  | String c p' => is_sep c && all_sep p'
  end.

(** [head.rstrip("/")] *)
Fixpoint rstrip_sep (p : string) : string :=
  match p with
  | "" => ""
  | String c p' =>
      let r := rstrip_sep p' in
      if is_sep c && negb (PyStr.truthy r) then "" else String c r
  end.

(** [os.path.dirname(p)] *)
Definition dirname (p : string) : string :=
  let head := head_upto_sep p in
  if PyStr.truthy head && negb (all_sep head) then rstrip_sep head else head.

(** [p.split("/")]: the pieces between separators, empty pieces kept. *)
Fixpoint split_sep (p : string) : list string :=
  match p with
  | "" => [""]
  | String c p' =>
      if is_sep c then "" :: split_sep p'
      else match split_sep p' with
           | piece :: rest => String c piece :: rest
           | [] => [String c ""]
           end
  end.

(** The file names a path walks through; empty pieces (doubled, leading
    and trailing separators) name nothing. *)
Definition components (p : string) : list string :=
  filter (λ piece, piece ≠ "") (split_sep p).

Definition isabs (p : string) : bool := PyStr.startswith "/" p.

(** The same names, each with the prefix of the path that ends with it:
    the paths [os.makedirs] hands to [mkdir] one after the other. *)
Fixpoint prefixes_go (before : string) (pieces : list string)
    : list (string * string) :=
  match pieces with
  | [] => []
  | piece :: rest =>
      let upto := before +:+ piece in
      (if decide (piece = "") then [] else [(piece, upto)])
      ++ prefixes_go (upto +:+ "/") rest
  end.

Definition prefixed (p : string) : list (string * string) :=
  prefixes_go "" (split_sep p).

End PosixPath.

(** ** The file system *)

Module Fs.

Inductive node :=
| File (data : string)
| Dir.

(** Every node is keyed by the names from the root down to it; the root
    itself is the empty key and always a directory.  [cwd] is the working
    directory of the process, which the agent never changes. *)
Record filesystem := {
  nodes : gmap (list string) node;
  cwd : list string
}.

Definition node_at (ns : gmap (list string) node) (loc : list string) : option node :=
  match loc with
  | [] => Some Dir
  | _ => ns !! loc
  end.

(** The limits of [<limits.h>] on Linux: a file name holds at most
    [NAME_MAX] bytes, and a path handed to a system call fewer than
    [PATH_MAX]. *)
Definition NAME_MAX : nat := 255.
Definition PATH_MAX : nat := 4096.

Definition name_too_long (c : string) : bool := NAME_MAX <? String.length c.
Definition path_too_long (p : string) : bool := PATH_MAX <=? String.length p.
Arguments name_too_long : simpl never.
Arguments path_too_long : simpl never.

Inductive resolved :=
| Found (loc : list string) (n : node)
| Missing (loc : list string) (slash : bool)
| NoEntry
| NotDir
| TooLong
| Invalid.

(** Path resolution from directory [cur] along [comps].  [slash] tells
    that the path ended in a separator, which demands a directory.
    [Missing loc] is a path whose last name is absent from an existing
    directory; [NoEntry] is ENOENT, [NotDir] is ENOTDIR and [TooLong] is
    ENAMETOOLONG, which looking up a name of more than [NAME_MAX] bytes
    gives. *)
Fixpoint walk (ns : gmap (list string) node) (cur comps : list string)
    (slash : bool) : resolved :=
  match comps with
  | [] => Found cur Dir
  | c :: rest =>
      if decide (c = ".") then walk ns cur rest slash
      else if decide (c = "..") then walk ns (removelast cur) rest slash
      else if name_too_long c then TooLong
      else
        match node_at ns (cur ++ [c]) with
        | Some Dir => walk ns (cur ++ [c]) rest slash
        | Some (File d) =>
            match rest with
            | [] => if slash then NotDir else Found (cur ++ [c]) (File d)
            | _ => NotDir
            end
        | None =>
            match rest with
            | [] => Missing (cur ++ [c]) slash
            | _ => NoEntry
            end
        end
  end.

Definition start (fs : filesystem) (path : string) : list string :=
  if PosixPath.isabs path then [] else cwd fs.

(** What a system call makes of [path]: Python refuses a path holding
    NUL before the call ([Invalid]), the kernel refuses one of [PATH_MAX]
    bytes or more before it looks anything up, and the empty path names
    nothing. *)
Definition resolve (fs : filesystem) (path : string) : resolved :=
  if PyStr.truthy path then
    if PyStr.has_nul path then Invalid
    else if path_too_long path then TooLong
    else walk (nodes fs) (start fs path) (PosixPath.components path)
              (PosixPath.endswith_sep path)
  else NoEntry.

Definition null_byte : exn := ValueError "embedded null byte".

(** [os.path.exists(path)]: false on any failure to resolve. *)
Definition exists_ (fs : filesystem) (path : string) : bool :=
  match resolve fs path with Found _ _ => true | _ => false end.

(** [os.path.isdir(path)] *)
Definition isdir (fs : filesystem) (path : string) : bool :=
  match resolve fs path with Found _ Dir => true | _ => false end.

(** The name under which key [k] is an immediate child of [loc]. *)
Fixpoint child_of (loc k : list string) : option string :=
  match loc, k with
  | [], [name] => Some name
  | a :: loc', b :: k' => if decide (a = b) then child_of loc' k' else None
  | _, _ => None
  end.

Definition children (ns : gmap (list string) node) (loc : list string) : list string :=
  omap (child_of loc) (map_to_list ns).*1.

(** [os.listdir(path)], in the order the directory happens to hold. *)
Definition listdir (fs : filesystem) (path : string) : outcome (list string) :=
  match resolve fs path with
  | Found loc Dir => Returns (children (nodes fs) loc)
  | Found _ (File _) => Raises (NotADirectoryError path)
  | Missing _ _ | NoEntry => Raises (FileNotFoundError path)
  | NotDir => Raises (NotADirectoryError path)
  | TooLong => Raises (FileNameTooLong path)
  | Invalid => Raises null_byte
  end.

(** [open(path, "r", encoding="utf-8")] followed by [f.read()]. *)
Definition read_text (fs : filesystem) (path : string) : outcome string :=
  match resolve fs path with
  | Found _ (File data) => Returns (PyStr.universal_newlines data)
  | Found _ Dir => Raises (IsADirectoryError path)
  | Missing _ _ | NoEntry => Raises (FileNotFoundError path)
  | NotDir => Raises (NotADirectoryError path)
  | TooLong => Raises (FileNameTooLong path)
  | Invalid => Raises null_byte
  end.

Definition set_nodes (fs : filesystem) (ns : gmap (list string) node) : filesystem :=
  {| nodes := ns; cwd := cwd fs |}.

(** [open(path, "w", encoding="utf-8")] followed by [f.write(text)]: the
    file is created or truncated, and on POSIX the text is stored as
    given ([os.linesep] is LF).  Once the file is open nothing in this
    model makes the write fail, so truncating and writing are one step. *)
Definition write_text (fs : filesystem) (path text : string)
    : outcome unit * filesystem :=
  match resolve fs path with
  | Found loc (File _) | Missing loc false =>
      (Returns (), set_nodes fs (<[loc := File text]> (nodes fs)))
  | Found _ Dir | Missing _ true => (Raises (IsADirectoryError path), fs)
  | NoEntry => (Raises (FileNotFoundError path), fs)
  | NotDir => (Raises (NotADirectoryError path), fs)
  | TooLong => (Raises (FileNameTooLong path), fs)
  | Invalid => (Raises null_byte, fs)
  end.

(** What [mkdir(prefix)] raises when a regular file stands where the
    parent of [prefix] should be. *)
Definition mkdir_under_file (prefix : string) : exn :=
  if PyStr.has_nul prefix then null_byte
  else if path_too_long prefix then FileNameTooLong prefix
  else NotADirectoryError prefix.

(** [os.makedirs(name, exist_ok=True)] unrolled: the call goes up [name]
    to the longest prefix that exists and then hands every longer prefix
    to [mkdir], the shortest first.  So, going down the names of [name]
    from [cur], each with its prefix: a directory that is present is
    entered, one that is absent is made, and a regular file in the way, a
    name holding NUL or longer than [NAME_MAX] and a prefix of [PATH_MAX]
    bytes or more raise, with what was made before left in place.
    [fresh] tells that a directory has been made on the way: a "." met
    after that is passed over without a call of [mkdir]. *)
Fixpoint mkdirs (ns : gmap (list string) node) (cur : list string)
    (fresh : bool) (comps : list (string * string))
    : outcome unit * gmap (list string) node :=
  match comps with
  | [] => (Returns (), ns)
  | (c, prefix) :: rest =>
      if decide (c = ".") then
        if negb fresh && path_too_long prefix
        then (Raises (FileNameTooLong prefix), ns)
        else mkdirs ns cur fresh rest
      else if PyStr.has_nul c then (Raises null_byte, ns)
      else if path_too_long prefix then (Raises (FileNameTooLong prefix), ns)
      else if decide (c = "..") then mkdirs ns (removelast cur) fresh rest
      else if name_too_long c then (Raises (FileNameTooLong prefix), ns)
      else
        match node_at ns (cur ++ [c]) with
        | Some Dir => mkdirs ns (cur ++ [c]) fresh rest
        | Some (File _) =>
            match rest with
            | [] => (Raises (FileExistsError prefix), ns)
            | (_, next) :: _ => (Raises (mkdir_under_file next), ns)
            end
        | None => mkdirs (<[cur ++ [c] := Dir]> ns) (cur ++ [c]) true rest
        end
  end.

(** [os.makedirs] calls itself on the head of its argument as long as the
    head does not exist, so its calls nest as deep as [name] has prefixes
    that do not exist (and once when all exist). *)
Definition makedirs_frames (fs : filesystem) (name : string) : nat :=
  length (filter (λ cp, exists_ fs cp.2 = false) (PosixPath.prefixed name)).

(** [sys.getrecursionlimit()] as CPython sets it.  When [os.makedirs] is
    entered five frames are on the stack -- the module, [main], [chat],
    [_execute_tool] and [_edit_file] -- and its innermost call puts two on
    top, [posixpath.split] and the [_get_sep] that this calls.  What is
    left is the depth to which [os.makedirs] may nest. *)
Definition recursion_limit : nat := 1000.
Definition frames_around_makedirs : nat := 7.
Definition makedirs_room : nat := recursion_limit - frames_around_makedirs.

Definition recursion_error : exn :=
  RecursionError "maximum recursion depth exceeded".

(** [name] is what [os.path.dirname] returned, so it ends in no separator
    unless it is made of separators only; then it names the root, and
    [mkdir] is called on it once.  The recursion runs out before any
    directory is made. *)
Definition makedirs (fs : filesystem) (name : string) : outcome unit * filesystem :=
  if PyStr.truthy name then
    if makedirs_room <? makedirs_frames fs name then (Raises recursion_error, fs)
    else
      let '(r, ns) :=
        match PosixPath.prefixed name with
        | [] =>
            (if path_too_long name then Raises (FileNameTooLong name)
             else Returns (), nodes fs)
        | comps => mkdirs (nodes fs) (start fs name) false comps
        end in
      (r, set_nodes fs ns)
  else (Raises (FileNotFoundError name), fs).

(** Well-formed trees: every key ends in a name a directory can hold and
    sits in a directory, and the working directory exists. *)
Definition valid_name (name : string) : Prop :=
  name ≠ "" ∧ name ≠ "." ∧ name ≠ ".." ∧ PosixPath.has_sep name = false ∧
  PyStr.has_nul name = false ∧ name_too_long name = false.

Definition wf_key (ns : gmap (list string) node) (k : list string) : Prop :=
  match reverse k with
  | [] => False
  | name :: parent => valid_name name ∧ node_at ns (reverse parent) = Some Dir
  end.

Definition wf_nodes (ns : gmap (list string) node) : Prop :=
  map_Forall (λ k _, wf_key ns k) ns.

Definition wf (fs : filesystem) : Prop :=
  wf_nodes (nodes fs) ∧ node_at (nodes fs) (cwd fs) = Some Dir.

(** A piece of a path that names something: not empty, no separator. *)
Definition comp_ok (c : string) : Prop := c ≠ "" ∧ PosixPath.has_sep c = false.

#[export] Instance node_eq_dec : EqDecision node.
Proof. solve_decision. Defined.

#[export] Instance valid_name_dec name : Decision (valid_name name).
Proof. unfold valid_name. apply _. Defined.

#[export] Instance wf_key_dec ns k : Decision (wf_key ns k).
Proof. unfold wf_key. destruct (reverse k); apply _. Defined.

#[export] Instance wf_dec fs : Decision (wf fs).
Proof. unfold wf, wf_nodes. apply _. Defined.

End Fs.

(** ** The agent *)

Module Agent.

Import Fs.

(** *** Transcript *)

Inductive role := user | assistant.

Inductive block :=
| text (text_ : string)
| tool_use (id name : string) (input : gmap string string)
| tool_result (tool_use_id content : string).

(** The ["content"] of a message is the user's input as a plain string, or
    a list of blocks. *)
Inductive content :=
| Plain (s : string)
| Blocks (bs : list block).

Record message := { msg_role : role; msg_content : content }.

(** The blocks of [response.content]: the request of [chat] turns on
    neither extended thinking nor server tools, so a block has type
    ["text"] or ["tool_use"]. *)
Inductive response_block :=
| TextBlock (text_ : string)
| ToolUseBlock (id name : string) (input : gmap string string).

(** *** Calls on the file system: a state monad over [filesystem] whose
    computations return or raise *)

Definition M (A : Type) : Type := filesystem → outcome A * filesystem.

Definition ret {A} (a : A) : M A := λ fs, (Returns a, fs).

Definition raise {A} (e : exn) : M A := λ fs, (Raises e, fs).

Definition bind {A B} (m : M A) (k : A → M B) : M B :=
  λ fs, match m fs with
        | (Returns a, fs') => k a fs'
        | (Raises e, fs') => (Raises e, fs')
        end.

(** [try: body except Exception as e: handler(e)] *)
Definition try_except {A} (body : M A) (handler : exn → M A) : M A :=
  λ fs, match body fs with
        | (Returns a, fs') => (Returns a, fs')
        | (Raises e, fs') => handler e fs'
        end.

(** A call that only looks at the file system. *)
Definition inspect {A} (f : filesystem → outcome A) : M A :=
  λ fs, (f fs, fs).

#[export] Instance M_ret : MRet M := @ret.
#[export] Instance M_bind : MBind M := λ A B k m, bind m k.

(** *** Tools *)

Definition _read_file (path : string) : M string :=
  try_except
    (content ← inspect (λ fs, read_text fs path);
     ret ("文件 " +:+ path +:+ " 的内容:" +:+ PyStr.nl +:+ content))
    (λ e, match e with
          | FileNotFoundError _ => ret ("文件未找到: " +:+ path)
          | _ => ret ("读取文件时出错: " +:+ PyStr.str_exn e)
          end).

(** [sorted(names)] on strings: ascending code-point order. *)
Definition sorted (names : list string) : list string :=
  merge_sort String.le names.

Definition list_entry (fs : filesystem) (path item : string) : string :=
  let item_path := PosixPath.join path item in
  if isdir fs item_path then "[目录]  " +:+ item +:+ "/"
  else "[文件] " +:+ item.

Definition _list_files (path : string) : M string :=
  try_except
    (present ← inspect (λ fs, Returns (exists_ fs path));
     if negb present then ret ("路径未找到: " +:+ path)
     else
       names ← inspect (λ fs, listdir fs path);
       items ← inspect (λ fs, Returns (list_entry fs path <$> sorted names));
       match items with
       | [] => ret ("空目录: " +:+ path)
       | _ => ret (path +:+ " 的内容:" +:+ PyStr.nl +:+ PyStr.join PyStr.nl items)
       end)
    (λ e, ret ("列出文件时出错: " +:+ PyStr.str_exn e)).

Definition _edit_file (path old_text new_text : string) : M string :=
  try_except
    (present ← inspect (λ fs, Returns (exists_ fs path));
     if present && PyStr.truthy old_text then
       content ← inspect (λ fs, read_text fs path);
       if negb (PyStr.contains old_text content)
       then ret ("文件中未找到文本: " +:+ old_text)
       else
         let content := PyStr.replace old_text new_text content in
         (λ fs, write_text fs path content) ;;
         ret ("成功编辑 " +:+ path)
     else
       let dir_name := PosixPath.dirname path in
       (if PyStr.truthy dir_name then (λ fs, makedirs fs dir_name) else ret ()) ;;
       (λ fs, write_text fs path new_text) ;;
       ret ("成功创建 " +:+ path))
    (λ e, ret ("编辑文件时出错: " +:+ PyStr.str_exn e)).

(** [tool_input[key]] *)
Definition getitem (tool_input : gmap string string) (key : string) : M string :=
  match tool_input !! key with
  | Some v => ret v
  | None => raise (KeyError key)
  end.

(** [tool_input.get(key, fallback)] *)
Definition get (tool_input : gmap string string) (key fallback : string) : string :=
  default fallback (tool_input !! key).

(** The dispatch on the tool name inside [try], and the [except] clause
    that turns an exception into a message.  The records that
    [logging.info] and [logging.error] write to [agent.log] on the way are
    left out. *)
Definition _execute_tool (tool_name : string) (tool_input : gmap string string)
    : M string :=
  try_except
    (if decide (tool_name = "read_file") then
       path ← getitem tool_input "path";
       _read_file path
     else if decide (tool_name = "list_files") then
       _list_files (get tool_input "path" ".")
     else if decide (tool_name = "edit_file") then
       path ← getitem tool_input "path";
       new_text ← getitem tool_input "new_text";
       _edit_file path (get tool_input "old_text" "") new_text
     else ret ("未知工具: " +:+ tool_name))
    (λ e, ret ("执行 " +:+ tool_name +:+ " 时出错: " +:+ PyStr.str_exn e)).

(** *** The conversation loop *)

(** What the agent has asked of its collaborators, oldest first: every
    [client.messages.create] with the transcript it was given, and every
    [_execute_tool] with its arguments. *)
Inductive event :=
| ModelCall (transcript : list message)
| ToolCall (tool_name : string) (tool_input : gmap string string).

Record agent := {
  messages : list message;
  files : filesystem;
  trace : list event
}.

Definition append_message (m : message) (a : agent) : agent :=
  {| messages := messages a ++ [m]; files := files a; trace := trace a |}.

Definition record (ev : event) (a : agent) : agent :=
  {| messages := messages a; files := files a; trace := trace a ++ [ev] |}.

Definition set_files (fs : filesystem) (a : agent) : agent :=
  {| messages := messages a; files := fs; trace := trace a |}.

(** The first loop over [response.content]. *)
Definition assistant_block (b : response_block) : block :=
  match b with
  | TextBlock t => text t
  | ToolUseBlock id name input => tool_use id name input
  end.

Definition assistant_message (response : list response_block) : message :=
  {| msg_role := assistant; msg_content := Blocks (assistant_block <$> response) |}.

(** The second loop over [response.content]: every ["tool_use"] block is
    executed where it stands and its result collected. *)
Fixpoint run_tools (response : list response_block) (a : agent)
    : outcome (list block) * agent :=
  match response with
  | [] => (Returns [], a)
  | TextBlock _ :: rest => run_tools rest a
  | ToolUseBlock id name input :: rest =>
      let a := record (ToolCall name input) a in
      match _execute_tool name input (files a) with
      | (Raises e, fs) => (Raises e, set_files fs a)
      | (Returns result, fs) =>
          match run_tools rest (set_files fs a) with
          | (Returns tool_results, a') =>
              (Returns (tool_result id result :: tool_results), a')
          | (Raises e, a') => (Raises e, a')
          end
      end
  end.

(** [content.text] *)
Definition text_of (b : response_block) : outcome string :=
  match b with
  | TextBlock t => Returns t
  | ToolUseBlock _ _ _ =>
      Raises (AttributeError "'ToolUseBlock' object has no attribute 'text'")
  end.

Definition error_reply (e : exn) : string := "错误: " +:+ PyStr.str_exn e.

Inductive round :=
| Reply (reply : string) (a : agent)
| Again (a : agent).

Section Chat.

(** The Model Client: the response to a transcript, or the exception the
    call raises. *)
Variable client : list message → outcome (list response_block).

(** One pass through the body of [while True]; the records that
    [logging.info] writes to [agent.log] are left out. *)
Definition chat_round (a : agent) : round :=
  let a := record (ModelCall (messages a)) a in
  match client (messages a) with
  | Raises e => Reply (error_reply e) a
  | Returns response =>
      let a := append_message (assistant_message response) a in
      match run_tools response a with
      | (Raises e, a) => Reply (error_reply e) a
      | (Returns [], a) =>
          match response with
          | [] => Reply "" a
          | first :: _ =>
              match text_of first with
              | Returns t => Reply t a
              | Raises e => Reply (error_reply e) a
              end
          end
      | (Returns tool_results, a) =>
          Again (append_message
                   {| msg_role := user; msg_content := Blocks tool_results |} a)
      end
  end.

(** [while True]: the source sets no bound on the rounds; [fuel] bounds
    them here and [None] means more rounds were wanted. *)
Fixpoint chat_loop (fuel : nat) (a : agent) : option (string * agent) :=
  match fuel with
  | O => None
  | S fuel' =>
      match chat_round a with
      | Reply reply a' => Some (reply, a')
      | Again a' => chat_loop fuel' a'
      end
  end.

Definition chat (fuel : nat) (user_input : string) (a : agent)
    : option (string * agent) :=
  chat_loop fuel
    (append_message {| msg_role := user; msg_content := Plain user_input |} a).

(** The state after [k] rounds that all asked for tools. *)
Fixpoint after_rounds (k : nat) (a : agent) : option agent :=
  match k with
  | O => Some a
  | S k' =>
      match chat_round a with
      | Again a' => after_rounds k' a'
      | Reply _ _ => None
      end
  end.

End Chat.

End Agent.

(** * The notions of the specification, in its own words *)

Module Spec.

Import Fs Agent.

(** The ToolUse blocks of a response, in the order they appear. *)
Fixpoint tool_uses (response : list response_block)
    : list (string * string * gmap string string) :=
  match response with
  | [] => []
  | TextBlock _ :: rest => tool_uses rest
  | ToolUseBlock id name input :: rest => (id, name, input) :: tool_uses rest
  end.

(** The text of the first Text block, the empty string when there is none. *)
Fixpoint first_text (response : list response_block) : string :=
  match response with
  | [] => ""
  | TextBlock t :: _ => t
  | ToolUseBlock _ _ _ :: rest => first_text rest
  end.

(** The string the Tool Executor hands back for one invocation. *)
Definition tool_outcome (name : string) (input : gmap string string)
    (fs : filesystem) : string * filesystem :=
  match _execute_tool name input fs with
  | (Returns s, fs') => (s, fs')
  | (Raises e, fs') => (PyStr.str_exn e, fs')
  end.

(** One ToolResult per ToolUse, each invocation seeing the files as the
    one before left them. *)
Fixpoint tool_results (uses : list (string * string * gmap string string))
    (fs : filesystem) : list block * filesystem :=
  match uses with
  | [] => ([], fs)
  | (id, name, input) :: rest =>
      let '(s, fs1) := tool_outcome name input fs in
      let '(results, fs2) := tool_results rest fs1 in
      (tool_result id s :: results, fs2)
  end.

Definition invocation (u : string * string * gmap string string) : event :=
  ToolCall u.1.2 u.2.

Definition result_id (b : block) : option string :=
  match b with tool_result id _ => Some id | _ => None end.

Definition use_id (b : block) : option string :=
  match b with tool_use id _ _ => Some id | _ => None end.

Definition blocks_of (m : message) : list block :=
  match msg_content m with Blocks bs => bs | Plain _ => [] end.

Definition round_agent (r : round) : agent :=
  match r with Reply _ a | Again a => a end.

(** *** Text replacement *)

(** [old] occurs in [s] after [n] characters. *)
Definition occurs_at (old s : string) (n : nat) : Prop :=
  ∃ pre post, s = pre +:+ old +:+ post ∧ String.length pre = n.

Definition occurs (old s : string) : Prop := ∃ n, occurs_at old s n.

(** [s'] is [s] with every occurrence of [old] replaced by [new] and all
    other text unchanged: a text free of [old] stays as it is; otherwise
    the text before the first occurrence stays, the occurrence becomes
    [new], and the text after it is treated the same way. *)
Inductive replaced_all (old new : string) : string → string → Prop :=
| replaced_none s :
    ¬ occurs old s →
    replaced_all old new s s
| replaced_first seg rest rest' :
    (∀ n, occurs_at old (seg +:+ old +:+ rest) n → String.length seg ≤ n) →
    replaced_all old new rest rest' →
    replaced_all old new (seg +:+ old +:+ rest) (seg +:+ new +:+ rest').





(** *** Creating a file *)

(** The directories entered going down [comps] from [cur], in order. *)
Fixpoint trail (cur comps : list string) : list (list string) :=
  match comps with
  | [] => []
  | c :: rest =>
      if decide (c = ".") then trail cur rest
      else if decide (c = "..") then trail (removelast cur) rest
      else (cur ++ [c]) :: trail (cur ++ [c]) rest
  end.

(** The directory reached going down [comps] from [cur]. *)
Fixpoint land (cur comps : list string) : list string :=
  match comps with
  | [] => cur
  | c :: rest =>
      if decide (c = ".") then land cur rest
      else if decide (c = "..") then land (removelast cur) rest
      else land (cur ++ [c]) rest
  end.

(** The tree once every missing directory among [locs] is made. *)
Definition made (ns : gmap (list string) node) (locs : list (list string))
    : gmap (list string) node :=
  foldl (λ m loc, match m !! loc with
                  | None => <[loc := Dir]> m
                  | Some _ => m
                  end) ns locs.

Definition no_file_at (ns : gmap (list string) node) (loc : list string) : Prop :=
  ∀ d, ns !! loc ≠ Some (File d).

(** The content of the regular file that [path] names. *)
Definition stored (fs : filesystem) (path : string) : option string :=
  match resolve fs path with
  | Found _ (File data) => Some data
  | _ => None
  end.

End Spec.

(** * A small world to run the agent in *)

Module Sample.

Import Fs Agent.

Definition crlf_text : string :=
  String "a" (String PyStr.CR (String PyStr.LF "b")).

(** [/home] is the working directory; it holds the directory [d] with the
    file [f.txt] (two lines, ended the Windows way) and the file [z]. *)
Definition tree : filesystem :=
  {| nodes :=
       <[ ["home"; "d"; "f.txt"] := File crlf_text ]>
       (<[ ["home"; "d"] := Dir ]>
       (<[ ["home"; "z"] := File "zz" ]>
       (<[ ["home"] := Dir ]> ∅)));
     cwd := ["home"] |}.

(** The working directory under a long name: "./" over and over, then
    ".". *)
(** A name of [n] letters. *)
Fixpoint letters (n : nat) : string :=
  match n with
  | O => ""
  | S k => String "a" (letters k)
  end.

Fixpoint dots (n : nat) : string :=
  match n with
  | O => "."
  | S k => String "." (String "/" (dots k))
  end.

(** A file under [levels + 2] directories that do not exist: [n], then
    "." over and over. *)
Definition deep (levels : nat) : string :=
  String "n" (String "/" (dots levels)) +:+ "/f".

Definition fresh : agent := {| messages := []; files := tree; trace := [] |}.

Definition asks_tools : list response_block :=
  [TextBlock "looking";
   ToolUseBlock "t1" "list_files" ∅;
   ToolUseBlock "t2" "read_file" {[ "path" := "z" ]}].

(** A model that asks for two tools, then answers, and is out of service
    when three answers are wanted in one turn. *)
Definition scripted (transcript : list message) : outcome (list response_block) :=
  match length transcript with
  | 1 => Returns asks_tools
  | 3 => Returns [TextBlock "done"; TextBlock "really"]
  | _ => Raises (APIError "overloaded")
  end.

Definition hello : message := {| msg_role := user; msg_content := Plain "hello" |}.

Definition greeted : agent := append_message hello fresh.

End Sample.

(** * The tool registry *)

Module Registry.

Import Agent.

(** One entry of ["properties"]: the name of a parameter with its
    ["type"] and ["description"]. *)
Record parameter := {
  param_name : string;
  param_type : string;
  param_description : string
}.

(** [input_schema]: ["type"], ["properties"] in the order written, and
    ["required"]. *)
Record schema := {
  schema_type : string;
  properties : list parameter;
  required : list string
}.

(** [class Tool(BaseModel)] *)
Record Tool := {
  name : string;
  description : string;
  input_schema : schema
}.


(** [tool_schemas] of [chat]: what each request hands to the model. *)
Definition tool_schemas (tools : list Tool) : list (string * string * schema) :=
  (λ tool, (name tool, description tool, input_schema tool)) <$> tools.

(** The body of the [try] of [_execute_tool]: the dispatch on the name,
    before the [except] clause turns an exception into a message. *)
Definition dispatch (tool_name : string) (tool_input : gmap string string)
    : M string :=
  if decide (tool_name = "read_file") then
    path ← getitem tool_input "path";
    _read_file path
  else if decide (tool_name = "list_files") then
    _list_files (get tool_input "path" ".")
  else if decide (tool_name = "edit_file") then
    path ← getitem tool_input "path";
    new_text ← getitem tool_input "new_text";
    _edit_file path (get tool_input "old_text" "") new_text
  else ret ("未知工具: " +:+ tool_name).

End Registry.

(** * The interactive session *)

Module Session.

Import Fs Agent.

(** What [input] meets on standard input: a line (without its newline),
    Ctrl-C, or the end of the input. *)
Inductive input_event :=
| Line (s : string)
| Interrupt
| EndOfFile.

(** The agent of the session and everything written to standard output,
    oldest first. *)
Record console := {
  session : agent;
  stdout : list string
}.

(** [print(s, end="")] *)
Definition write (s : string) (c : console) : console :=
  {| session := session c; stdout := stdout c ++ [s] |}.

(** [print(s)] *)
Definition print (s : string) (c : console) : console :=
  write (s +:+ PyStr.nl) c.

Definition with_session (a : agent) (c : console) : console :=
  {| session := a; stdout := stdout c |}.

(** Where the program stands once the input seen so far is used up:
    blocked in [input], or ended with an exit status. *)
Inductive status :=
| AwaitingInput (c : console)
| Exited (code : nat) (c : console).

Definition prompt : string := "你: ".
Definition farewell : string := "再见！".

Section Loop.

Variable client : list message → outcome (list response_block).

(** [str.strip] and [str.lower]: the builtins of Python, on Unicode text. *)
Variables strip lower : string → string.

(** The bound on the rounds of each [agent.chat]. *)
Variable fuel : nat.

(** The main conversation loop of [main].  [None]: a call of [chat] wanted
    more rounds than [fuel].  An interrupt is one that arrives while the
    program waits in [input]; [chat] raises nothing, so [input] is the only
    call of the [try] block that brings the [except] clauses in. *)
Fixpoint repl (events : list input_event) (c : console) : option status :=
  let c := write prompt c in
  match events with
  | [] => Some (AwaitingInput c)
  | Interrupt :: _ =>
      Some (Exited 0 (print (PyStr.nl +:+ PyStr.nl +:+ farewell) c))
  | EndOfFile :: rest =>
      repl rest
        (print "" (print (PyStr.nl +:+ "错误: " +:+ "EOF when reading a line") c))
  | Line s :: rest =>
      let user_input := strip s in
      if decide (lower user_input ∈ ["exit"; "quit"]) then
        Some (Exited 0 (print farewell c))
      else if negb (PyStr.truthy user_input) then repl rest c
      else
        let c := write (PyStr.nl +:+ "助手: ") c in
        match chat client fuel user_input (session c) with
        | None => None
        | Some (response, a) =>
            repl rest (print "" (print response (with_session a c)))
        end
  end.

(** [args.api_key or os.environ.get("ANTHROPIC_API_KEY")] *)
Definition api_key_of (flag env : option string) : option string :=
  match flag with
  | Some k => if PyStr.truthy k then Some k else env
  | None => env
  end.

(** [not api_key] *)
Definition missing (api_key : option string) : bool :=
  match api_key with
  | Some k => negb (PyStr.truthy k)
  | None => true
  end.

Definition banner (c : console) : console :=
  print "" (print "输入'exit'或'quit'结束对话。"
    (print "一个可以读取、列出和编辑文件的对话式AI代理。"
      (print "================" (print "AI代码助手" c)))).

(** [main]: the key from the flag or the environment, then the session of a
    new agent, whose transcript is empty, on the files as they are. *)
Definition main (flag env : option string) (fs : filesystem)
    (events : list input_event) : option status :=
  let c := {| session := {| messages := []; files := fs; trace := [] |};
              stdout := [] |} in
  if missing (api_key_of flag env) then
    Some (Exited 1
      (print "错误: 请通过--api-key参数或ANTHROPIC_API_KEY环境变量提供API密钥" c))
  else repl events (banner c).

End Loop.

Definition console_of (st : status) : console :=
  match st with AwaitingInput c | Exited _ c => c end.

(** A line that ends the session. *)
Definition says_exit (strip lower : string → string) (ev : input_event) : Prop :=
  match ev with
  | Line s => lower (strip s) ∈ ["exit"; "quit"]
  | Interrupt => True
  | EndOfFile => False
  end.

End Session.

(** * More notions to state what the code keeps *)

Module Keeps.

Import Fs Agent Spec.

(** The ids a message answers, and the ids a message asks with. *)
Definition result_ids (m : message) : list string := omap result_id (blocks_of m).
Definition use_ids (m : message) : list string := omap use_id (blocks_of m).

(** A transcript in which every message that carries tool results is a user
    message standing right after an assistant message that asked for
    exactly those ids, in that order. *)
Inductive paired : list message → Prop :=
| paired_nil : paired []
| paired_other ms m :
    paired ms → result_ids m = [] → paired (ms ++ [m])
| paired_results ms asking m :
    paired (ms ++ [asking]) →
    msg_role asking = assistant → msg_role m = user →
    result_ids m = use_ids asking →
    paired (ms ++ [asking; m]).

Definition is_model_call (ev : event) : bool :=
  match ev with ModelCall _ => true | ToolCall _ _ => false end.

Definition edits (ev : event) : Prop :=
  match ev with ToolCall name _ => name = "edit_file" | ModelCall _ => False end.

(** The inputs of the user that a transcript holds, oldest first. *)
Definition plain_inputs (ms : list message) : list string :=
  omap (λ m, match msg_content m with
             | Plain s => Some s
             | Blocks _ => None
             end) ms.

(** The lines of a session that are put to the agent: stripped, not empty,
    and read before the first line that says exit or quit and before the
    first interrupt. *)
Fixpoint asked_lines (strip lower : string → string)
    (events : list Session.input_event) : list string :=
  match events with
  | [] => []
  | Session.Interrupt :: _ => []
  | Session.EndOfFile :: rest => asked_lines strip lower rest
  | Session.Line s :: rest =>
      if decide (lower (strip s) ∈ ["exit"; "quit"]) then []
      else if PyStr.truthy (strip s)
           then strip s :: asked_lines strip lower rest
           else asked_lines strip lower rest
  end.

(** Input that asks nothing: a blank line, or the end of the input. *)
Definition idle (strip lower : string → string) (ev : Session.input_event) : Prop :=
  match ev with
  | Session.Line s => (lower (strip s) ∉ ["exit"; "quit"]) ∧ strip s = ""
  | Session.EndOfFile => True
  | Session.Interrupt => False
  end.

(** A model call that was handed a beginning of the transcript [final]. *)
Definition sees_prefix_of (final : list message) (ev : event) : Prop :=
  match ev with
  | ModelCall transcript => transcript `prefix_of` final
  | ToolCall _ _ => True
  end.

(** ASCII versions of [str.strip] and [str.lower], which is what the
    builtins do on ASCII text. *)
Definition is_space (c : ascii) : bool :=
  let n := nat_of_ascii c in
  Nat.eqb n 32 || (Nat.leb 9 n && Nat.leb n 13) || (Nat.leb 28 n && Nat.leb n 31).

Fixpoint lstrip (s : string) : string :=
  match s with
  | "" => ""
  | String c s' => if is_space c then lstrip s' else s
  end.

Fixpoint rstrip (s : string) : string :=
  match s with
  | "" => ""
  | String c s' =>
      let r := rstrip s' in
      if is_space c && negb (PyStr.truthy r) then "" else String c r
  end.

Definition strip (s : string) : string := rstrip (lstrip s).

Definition lower_char (c : ascii) : ascii :=
  let n := nat_of_ascii c in
  if Nat.leb 65 n && Nat.leb n 90 then ascii_of_nat (n + 32) else c.

Fixpoint lower (s : string) : string :=
  match s with
  | "" => ""
  | String c s' => String (lower_char c) (lower s')
  end.

End Keeps.

(** * Theorems *)

Import Fs Agent Spec.

Ltac run_M :=
  unfold mbind, M_bind, bind, try_except, inspect, mret, M_ret, ret, raise, getitem in *;
  simpl in *.

Section Tools.

Implicit Types (fs : filesystem) (path : string).

Lemma read_file_returns path fs :
  ∃ s, _read_file path fs = (Returns s, fs).
Proof.
  unfold _read_file. run_M.
  destruct (read_text fs path) as [c|e]; [eauto|].
  destruct e; eauto.
Qed.

Lemma list_files_returns path fs :
  ∃ s, _list_files path fs = (Returns s, fs).
Proof.
  unfold _list_files. run_M.
  destruct (exists_ fs path); simpl; [|eauto].
  destruct (listdir fs path) as [names|e]; simpl; [|eauto].
  destruct (list_entry fs path <$> sorted names); eauto.
Qed.

Lemma edit_file_returns path old_text new_text fs :
  ∃ s fs', _edit_file path old_text new_text fs = (Returns s, fs').
Proof.
  unfold _edit_file. run_M.
  destruct (exists_ fs path && PyStr.truthy old_text).
  - destruct (read_text fs path) as [c|e]; simpl; [|eauto].
    destruct (PyStr.contains old_text c); simpl; [|eauto].
    destruct (write_text fs path _) as [[[]|e] fs1]; eauto.
  - destruct (PyStr.truthy (PosixPath.dirname path)).
    + destruct (makedirs fs _) as [[[]|e] fs1]; [|eauto].
      destruct (write_text fs1 path _) as [[[]|e] fs2]; eauto.
    + simpl. destruct (write_text fs path _) as [[[]|e] fs2]; eauto.
Qed.

Lemma execute_tool_returns name (input : gmap string string) fs :
  ∃ s fs', _execute_tool name input fs = (Returns s, fs').
Proof.
  unfold _execute_tool. unfold try_except.
  repeat case_decide.
  - run_M. destruct (input !! "path") as [p|]; simpl; [|eauto].
    destruct (read_file_returns p fs) as [s ->]. eauto.
  - destruct (list_files_returns (get input "path" ".") fs) as [s ->]. eauto.
  - run_M. destruct (input !! "path") as [p|]; simpl; [|eauto].
    destruct (input !! "new_text") as [t|]; simpl; [|eauto].
    destruct (edit_file_returns p (get input "old_text" "") t fs)
      as (s & fs' & ->). eauto.
  - run_M. eauto.
Qed.

Lemma execute_tool_unknown name (input : gmap string string) fs :
  name ≠ "read_file" → name ≠ "list_files" → name ≠ "edit_file" →
  _execute_tool name input fs = (Returns ("未知工具: " +:+ name), fs).
Proof.
  intros. unfold _execute_tool, try_except.
  repeat case_decide; try done.
Qed.

Lemma tool_outcome_spec name (input : gmap string string) fs :
  _execute_tool name input fs =
    (Returns (tool_outcome name input fs).1, (tool_outcome name input fs).2).
Proof.
  unfold tool_outcome.
  destruct (execute_tool_returns name input fs) as (s & fs' & ->). done.
Qed.

End Tools.

Section Strings.

Lemma str_app_nil_l s : "" +:+ s = s.
Proof. done. Qed.

Lemma str_app_cons c s t : String c s +:+ t = String c (s +:+ t).
Proof. done. Qed.

Lemma str_app_nil_r s : s +:+ "" = s.
Proof. induction s as [|c s IH]; [done|]. by rewrite str_app_cons, IH. Qed.

Lemma str_app_assoc s t u : (s +:+ t) +:+ u = s +:+ t +:+ u.
Proof. induction s as [|c s IH]; [done|]. by rewrite !str_app_cons, IH. Qed.

Lemma startswith_app p s : PyStr.startswith p (p +:+ s) = true.
Proof. induction p as [|c p IH]; simpl; [done|]. case_decide; done. Qed.

Lemma startswith_contains p s : PyStr.startswith p s = true → PyStr.contains p s = true.
Proof. destruct s; simpl; intros ->; done. Qed.

Lemma has_char_app a s t :
  PyStr.has_char a (s +:+ t) = PyStr.has_char a s || PyStr.has_char a t.
Proof.
  induction s as [|c s IH]; [done|]. rewrite str_app_cons. simpl.
  by rewrite IH, orb_assoc.
Qed.

Lemma name_fits c : name_too_long c = false ↔ String.length c ≤ NAME_MAX.
Proof. unfold name_too_long. apply Nat.ltb_ge. Qed.

Lemma path_fits p : path_too_long p = false ↔ String.length p < PATH_MAX.
Proof. unfold path_too_long. apply Nat.leb_gt. Qed.

Lemma contains_app_l p s : PyStr.contains p (p +:+ s) = true.
Proof. apply startswith_contains, startswith_app. Qed.

End Strings.

(** C4. For every tool name and argument mapping the Tool Executor returns a
    string and raises nothing; for a name other than [read_file],
    [list_files] and [edit_file] the string is the unknown-tool message
    (it contains the words for "unknown tool") and the files are left as
    they were. *)
Theorem execute_tool_never_raises (name : string) (input : gmap string string)
    (fs : filesystem) :
  ∃ s fs', _execute_tool name input fs = (Returns s, fs') ∧
    (name ∉ ["read_file"; "list_files"; "edit_file"] →
       s = "未知工具: " +:+ name ∧ PyStr.contains "未知工具" s = true ∧ fs' = fs).
Proof.
  destruct (execute_tool_returns name input fs) as (s & fs' & E).
  exists s, fs'. split; [done|].
  intros Hname. rewrite execute_tool_unknown in E by set_solver.
  simplify_eq. split_and!; [done| |done].
  change "未知工具: " with ("未知工具" +:+ ": ").
  rewrite str_app_assoc. apply contains_app_l.
Qed.

(** C4 at a sample: a name no tool bears. *)
Lemma execute_tool_never_raises_witness :
  ("delete_file" ∉ ["read_file"; "list_files"; "edit_file"]) ∧
  ∃ s, _execute_tool "delete_file" ∅ Sample.tree = (Returns s, Sample.tree) ∧
       PyStr.contains "未知工具" s = true.
Proof.
  assert ("delete_file" ∉ ["read_file"; "list_files"; "edit_file"]) as Hn.
  { rewrite !not_elem_of_cons. split_and!; [discriminate..|]. apply not_elem_of_nil. }
  split; [exact Hn|].
  destruct (execute_tool_never_raises "delete_file" ∅ Sample.tree)
    as (s & fs' & He & Hu).
  destruct (Hu Hn) as (_ & Hs & ->).
  exists s. split; [exact He|exact Hs].
Defined.

(** C10. [read_file] and [list_files] leave the file system as it was,
    whether they hand back content or an error message. *)
Theorem read_and_list_change_nothing (path : string) (fs : filesystem) :
  (_read_file path fs).2 = fs ∧ (_list_files path fs).2 = fs.
Proof.
  destruct (read_file_returns path fs) as [s ->].
  destruct (list_files_returns path fs) as [s' ->]. done.
Qed.

Section Loop.

Variable client : list message → outcome (list response_block).

Lemma run_tools_spec response a :
  run_tools response a =
    (Returns (tool_results (tool_uses response) (files a)).1,
     {| messages := messages a;
        files := (tool_results (tool_uses response) (files a)).2;
        trace := trace a ++ (invocation <$> tool_uses response) |}).
Proof.
  revert a. induction response as [|[t|id name input] rest IH]; intros a; simpl.
  - rewrite app_nil_r. by destruct a.
  - apply IH.
  - rewrite tool_outcome_spec. rewrite IH. simpl.
    destruct (tool_outcome name input (files a)) as [s fs1]. simpl.
    destruct (tool_results (tool_uses rest) fs1) as [results fs2]. simpl.
    by rewrite <- app_assoc.
Qed.

Lemma tool_results_nil uses fs :
  (tool_results uses fs).1 = [] ↔ uses = [].
Proof.
  destruct uses as [|[[id name] input] rest]; simpl; [done|].
  destruct (tool_outcome name input fs) as [s fs1].
  destruct (tool_results rest fs1) as [results fs2]. done.
Qed.

Lemma tool_results_ids uses fs :
  result_id <$> (tool_results uses fs).1 = (λ u, Some u.1.1) <$> uses.
Proof.
  revert fs. induction uses as [|[[id name] input] rest IH]; intros fs; simpl; [done|].
  destruct (tool_outcome name input fs) as [s fs1]. specialize (IH fs1).
  destruct (tool_results rest fs1) as [results fs2]. simpl in *. by f_equal.
Qed.

Lemma tool_uses_of_assistant response :
  omap use_id (blocks_of (assistant_message response)) =
    (λ u, u.1.1) <$> tool_uses response.
Proof.
  unfold blocks_of. simpl.
  induction response as [|[t|id name input] rest IH]; [done|exact IH|].
  change (id :: omap use_id (assistant_block <$> rest) =
          id :: ((λ u, u.1.1) <$> tool_uses rest)).
  by f_equal.
Qed.

(** A round whose response asks for no tool. *)
Lemma chat_round_reply a response :
  client (messages a) = Returns response →
  tool_uses response = [] →
  chat_round client a =
    Reply (first_text response)
      {| messages := messages a ++ [assistant_message response];
         files := files a;
         trace := trace a ++ [ModelCall (messages a)] |}.
Proof.
  intros Hc Hn. unfold chat_round. simpl. rewrite Hc.
  rewrite run_tools_spec. rewrite Hn. simpl. rewrite app_nil_r.
  destruct response as [|[t|id name input] rest]; simpl in *; done.
Qed.

(** A round whose response asks for tools. *)
Lemma chat_round_again a response :
  client (messages a) = Returns response →
  tool_uses response ≠ [] →
  chat_round client a =
    Again
      {| messages := messages a ++
           [assistant_message response;
            {| msg_role := user;
               msg_content :=
                 Blocks (tool_results (tool_uses response) (files a)).1 |}];
         files := (tool_results (tool_uses response) (files a)).2;
         trace := trace a ++ ModelCall (messages a)
                    :: (invocation <$> tool_uses response) |}.
Proof.
  intros Hc Hn. unfold chat_round. simpl. rewrite Hc.
  rewrite run_tools_spec. simpl.
  destruct (tool_results (tool_uses response) (files a)).1 as [|r results] eqn:E.
  { apply tool_results_nil in E. done. }
  unfold append_message. simpl. f_equal. f_equal.
  - by rewrite <- app_assoc.
  - by rewrite <- app_assoc.
Qed.

(** A round in which the Model Client raises. *)
Lemma chat_round_raises a e :
  client (messages a) = Raises e →
  chat_round client a =
    Reply (error_reply e) (record (ModelCall (messages a)) a).
Proof. intros Hc. unfold chat_round. simpl. by rewrite Hc. Qed.

(** Every round opens with a call of the Model Client on the transcript. *)
Lemma chat_round_calls_model a :
  ∃ more, trace (round_agent (chat_round client a)) =
            trace a ++ ModelCall (messages a) :: more.
Proof.
  destruct (client (messages a)) as [response|e] eqn:Hc.
  - destruct (decide (tool_uses response = [])) as [Hn|Hn].
    + rewrite (chat_round_reply _ _ Hc Hn). simpl. eauto.
    + rewrite (chat_round_again _ _ Hc Hn). simpl. eauto.
  - rewrite (chat_round_raises _ _ Hc). simpl. eauto.
Qed.

(** The transcript only grows. *)
Lemma chat_round_grows a :
  messages a `prefix_of` messages (round_agent (chat_round client a)).
Proof.
  destruct (client (messages a)) as [response|e] eqn:Hc.
  - destruct (decide (tool_uses response = [])) as [Hn|Hn].
    + rewrite (chat_round_reply _ _ Hc Hn). simpl. by apply prefix_app_r.
    + rewrite (chat_round_again _ _ Hc Hn). simpl. by apply prefix_app_r.
  - rewrite (chat_round_raises _ _ Hc). done.
Qed.

Lemma after_rounds_grows k a a' :
  after_rounds client k a = Some a' → messages a `prefix_of` messages a'.
Proof.
  revert a. induction k as [|k IH]; intros a; simpl.
  - intros; by simplify_eq.
  - pose proof (chat_round_grows a) as Hg.
    destruct (chat_round client a) as [r a1|a1]; [done|].
    intros H. etrans; [exact Hg|]. by apply IH.
Qed.

Lemma chat_loop_after_rounds k a a' fuel :
  after_rounds client k a = Some a' →
  chat_loop client (k + fuel) a = chat_loop client fuel a'.
Proof.
  revert a. induction k as [|k IH]; intros a; simpl.
  - intros; by simplify_eq.
  - destruct (chat_round client a) as [r a1|a1]; [done|]. apply IH.
Qed.

End Loop.

Section Turn.

Variable client : list message → outcome (list response_block).

Lemma chat_loop_starts_with_call fuel a reply final :
  chat_loop client fuel a = Some (reply, final) →
  ∃ more, trace final = trace a ++ ModelCall (messages a) :: more.
Proof.
  revert a. induction fuel as [|fuel IH]; intros a; simpl; [done|].
  destruct (chat_round_calls_model client a) as [more Hm].
  destruct (chat_round client a) as [r a1|a1]; simpl in Hm.
  - intros; simplify_eq. eauto.
  - intros (more' & Hf)%IH. rewrite Hf, Hm, <- app_assoc. simpl. eauto.
Qed.

End Turn.

(** C1. A response with N >= 1 ToolUse blocks: the round calls the Tool
    Executor exactly N times, in the order of the blocks; it appends, after
    the assistant message, exactly one user message holding one ToolResult
    per call, whose ids are the ids of the ToolUse blocks of that assistant
    message and whose contents are what the executor returned; and the loop
    goes on to another round, which opens with a Model Client call, so that
    no reply is returned before that call. *)
Theorem tool_uses_run_in_order
    (client : list message → outcome (list response_block))
    (a : agent) (response : list response_block) :
  client (messages a) = Returns response →
  length (tool_uses response) ≥ 1 →
  ∃ results a',
    chat_round client a = Again a' ∧
    trace a' = trace a ++ ModelCall (messages a)
                 :: (invocation <$> tool_uses response) ∧
    messages a' = messages a ++
      [assistant_message response;
       {| msg_role := user; msg_content := Blocks results |}] ∧
    (results, files a') = tool_results (tool_uses response) (files a) ∧
    length results = length (tool_uses response) ∧
    result_id <$> results =
      Some <$> omap use_id (blocks_of (assistant_message response)) ∧
    (∀ fuel, chat_loop client (S fuel) a = chat_loop client fuel a') ∧
    (∃ more, trace (round_agent (chat_round client a')) =
               trace a' ++ ModelCall (messages a') :: more) ∧
    (∀ fuel reply final, chat_loop client fuel a = Some (reply, final) →
       ∃ more, trace final = trace a' ++ ModelCall (messages a') :: more).
Proof.
  intros Hc HN.
  assert (tool_uses response ≠ []) as Hn by (intros E; rewrite E in HN; simpl in HN; lia).
  pose proof (chat_round_again client a response Hc Hn) as Hr.
  eexists _, _. split; [exact Hr|]. simpl.
  split_and!; try done.
  - by destruct (tool_results (tool_uses response) (files a)).
  - pose proof (tool_results_ids (tool_uses response) (files a)) as Hi.
    apply (f_equal length) in Hi. by rewrite !length_fmap in Hi.
  - rewrite tool_results_ids, tool_uses_of_assistant, <- list_fmap_compose. done.
  - intros fuel. simpl. by rewrite Hr.
  - apply chat_round_calls_model.
  - intros [|fuel] reply final; simpl; [done|]. rewrite Hr.
    apply chat_loop_starts_with_call.
Qed.

Lemma tool_uses_run_in_order_witness :
  Sample.scripted (messages Sample.greeted) = Returns Sample.asks_tools ∧
  length (tool_uses Sample.asks_tools) ≥ 1 ∧
  ∃ results a',
    chat_round Sample.scripted Sample.greeted = Again a' ∧
    length results = 2 ∧
    messages a' = [Sample.hello; assistant_message Sample.asks_tools;
                   {| msg_role := user; msg_content := Blocks results |}].
Proof.
  split; [reflexivity|]. split; [simpl; lia|].
  destruct (tool_uses_run_in_order Sample.scripted Sample.greeted Sample.asks_tools)
    as (results & a' & Hr & _ & Hm & _ & Hl & _); [reflexivity|simpl; lia|].
  exists results, a'. split; [exact Hr|]. split; [exact Hl|exact Hm].
Defined.

(** C2. A response with no ToolUse block: the round makes the one Model
    Client call that produced it, calls the Tool Executor not at all, leaves
    the files alone, and replies with the text of the first Text block, or
    with the empty string when the response has no Text block. *)
Theorem no_tool_use_replies_first_text
    (client : list message → outcome (list response_block))
    (a : agent) (response : list response_block) (fuel : nat) :
  client (messages a) = Returns response →
  length (tool_uses response) = 0 →
  ∃ a',
    chat_loop client (S fuel) a = Some (first_text response, a') ∧
    trace a' = trace a ++ [ModelCall (messages a)] ∧
    files a' = files a ∧
    messages a' = messages a ++ [assistant_message response].
Proof.
  intros Hc HN. apply length_zero_iff_nil in HN.
  eexists. simpl. rewrite (chat_round_reply client a response Hc HN). done.
Qed.

Lemma no_tool_use_replies_first_text_witness :
  let a := {| messages := [Sample.hello; Sample.hello; Sample.hello];
              files := Sample.tree; trace := [] |} in
  Sample.scripted (messages a) = Returns [TextBlock "done"; TextBlock "really"] ∧
  length (tool_uses [TextBlock "done"; TextBlock "really"]) = 0 ∧
  ∃ a', chat_loop Sample.scripted 1 a = Some ("done", a') ∧
        trace a' = [ModelCall (messages a)].
Proof.
  intros a. split; [reflexivity|]. split; [reflexivity|].
  destruct (no_tool_use_replies_first_text Sample.scripted a
              [TextBlock "done"; TextBlock "really"] 0)
    as (a' & Hl & Ht & _); [reflexivity|reflexivity|].
  exists a'. split; [exact Hl|exact Ht].
Defined.

(** C3. A turn in which a Model Client call raises, after [k] rounds of tool
    use: [chat] returns the error sentence for that exception as the reply
    of the turn, and the transcript is the one the failing call was given,
    which extends what the turn had appended so far; the failing call adds
    no message and touches no file. *)
Theorem model_failure_ends_turn
    (client : list message → outcome (list response_block))
    (a a_k : agent) (user_input : string) (k fuel : nat) (e : exn) :
  after_rounds client k
    (append_message {| msg_role := user; msg_content := Plain user_input |} a)
    = Some a_k →
  client (messages a_k) = Raises e →
  k < fuel →
  ∃ final,
    chat client fuel user_input a = Some ("错误: " +:+ PyStr.str_exn e, final) ∧
    messages final = messages a_k ∧
    files final = files a_k ∧
    trace final = trace a_k ++ [ModelCall (messages a_k)] ∧
    (messages a ++ [{| msg_role := user; msg_content := Plain user_input |}])
      `prefix_of` messages final.
Proof.
  intros Hk Hc Hf.
  exists (record (ModelCall (messages a_k)) a_k).
  split_and!; try done.
  - unfold chat. replace fuel with (k + S (fuel - S k)) by lia.
    rewrite (chat_loop_after_rounds client k _ a_k _ Hk). simpl.
    by rewrite (chat_round_raises client a_k e Hc).
  - apply (after_rounds_grows client k _ _ Hk).
Qed.

Lemma model_failure_ends_turn_witness :
  ∃ a_k,
    after_rounds Sample.scripted 0 (append_message Sample.hello Sample.greeted)
      = Some a_k ∧
    Sample.scripted (messages a_k) = Raises (APIError "overloaded") ∧
    0 < 1 ∧
    ∃ final,
      chat Sample.scripted 1 "hello" Sample.greeted = Some ("错误: overloaded", final) ∧
      messages final = [Sample.hello; Sample.hello].
Proof.
  exists (append_message Sample.hello Sample.greeted).
  split; [reflexivity|]. split; [reflexivity|]. split; [lia|].
  destruct (model_failure_ends_turn Sample.scripted Sample.greeted
              (append_message Sample.hello Sample.greeted) "hello" 0 1
              (APIError "overloaded"))
    as (final & Hchat & Hm & _); [reflexivity|reflexivity|lia|].
  exists final. split; [exact Hchat|exact Hm].
Defined.

Section Replace.

Implicit Types (old new s seg rest : string).

Lemma str_length_app s t : String.length (s +:+ t) = String.length s + String.length t.
Proof. induction s as [|c s IH]; [done|]. rewrite str_app_cons. simpl. by rewrite IH. Qed.

Lemma str_app_inv_length s1 s2 t1 t2 :
  s1 +:+ t1 = s2 +:+ t2 → String.length s1 = String.length s2 → s1 = s2 ∧ t1 = t2.
Proof.
  revert s2. induction s1 as [|c s1 IH]; intros [|d s2]; try done.
  rewrite !str_app_cons. simpl. intros [= -> H] [= Hl].
  destruct (IH _ H Hl) as [-> ->]. done.
Qed.

Lemma startswith_iff old s :
  PyStr.startswith old s = true ↔ ∃ post, s = old +:+ post.
Proof.
  revert s. induction old as [|c old IH]; intros s; simpl.
  - split; [eauto|done].
  - destruct s as [|d s].
    + split; [done|]. intros [post H]. by rewrite str_app_cons in H.
    + case_decide as Hcd.
      * subst d. rewrite IH. split; intros [post H]; exists post.
        -- by rewrite str_app_cons, H.
        -- rewrite str_app_cons in H. by simplify_eq.
      * split; [done|]. intros [post H]. rewrite str_app_cons in H. by simplify_eq.
Qed.

Lemma contains_iff old s : PyStr.contains old s = true ↔ occurs old s.
Proof.
  induction s as [|c s IH]; simpl.
  - rewrite orb_false_r, startswith_iff. split.
    + intros [post H]. exists 0, "", post. by rewrite str_app_nil_l.
    + intros (n & pre & post & H & _). destruct pre; [|done].
      rewrite str_app_nil_l in H. eauto.
  - rewrite orb_true_iff, IH, startswith_iff. split.
    + intros [[post H]|(n & pre & post & H & Hn)].
      * exists 0, "", post. by rewrite str_app_nil_l.
      * exists (S n), (String c pre), post. rewrite str_app_cons, H. simpl. auto.
    + intros (n & pre & post & H & Hn). destruct pre as [|d pre].
      * left. rewrite str_app_nil_l in H. eauto.
      * right. rewrite str_app_cons in H. simplify_eq. by exists (String.length pre), pre, post.
Qed.

Lemma contains_false_iff old s : PyStr.contains old s = false ↔ ¬ occurs old s.
Proof. rewrite <- contains_iff. by destruct (PyStr.contains old s). Qed.

(** Passing over the characters still to be skipped. *)
Lemma replace_go_skip old new t rest :
  PyStr.replace_go old new (String.length t) (t +:+ rest) =
    PyStr.replace_go old new 0 rest.
Proof.
  induction t as [|c t IH]; simpl.
  - rewrite str_app_nil_l. by destruct rest.
  - by rewrite ?str_app_cons.
Qed.

Lemma replace_go_absent old new s :
  ¬ occurs old s → PyStr.replace_go old new 0 s = s.
Proof.
  induction s as [|c s IH]; [done|]. intros Hno.
  cbn [PyStr.replace_go].
  destruct (PyStr.startswith old (String c s)) eqn:Hs.
  - exfalso. apply Hno, contains_iff, startswith_contains, Hs.
  - rewrite IH; [done|]. intros (n & pre & post & H & Hn). apply Hno.
    exists (S n), (String c pre), post. rewrite str_app_cons, H. simpl. auto.
Qed.

Lemma replace_go_first old new seg rest :
  old ≠ "" →
  (∀ n, occurs_at old (seg +:+ old +:+ rest) n → String.length seg ≤ n) →
  PyStr.replace_go old new 0 (seg +:+ old +:+ rest) =
    seg +:+ new +:+ PyStr.replace_go old new 0 rest.
Proof.
  intros Hold. induction seg as [|c seg IH]; intros Hfirst.
  - rewrite !str_app_nil_l. destruct old as [|c old]; [done|].
    rewrite str_app_cons. cbn [PyStr.replace_go].
    rewrite <- str_app_cons, startswith_app. f_equal.
    replace (String.length (String c old) - 1) with (String.length old)
      by (simpl; lia).
    apply replace_go_skip.
  - rewrite !str_app_cons. cbn [PyStr.replace_go].
    destruct (PyStr.startswith old (String c (seg +:+ old +:+ rest))) eqn:Hs.
    + apply startswith_iff in Hs as [post Hs].
      specialize (Hfirst 0). simpl in Hfirst. exfalso.
      assert (S (String.length seg) ≤ 0) as Hle; [|lia]. apply Hfirst.
      exists "", post. by rewrite str_app_cons, Hs, str_app_nil_l.
    + f_equal. apply IH. intros n (pre & post & H & Hn).
      assert (S (String.length seg) ≤ S n) as Hle; [|lia].
      apply (Hfirst (S n)). exists (String c pre), post.
      rewrite !str_app_cons, H. simpl. auto.
Qed.

(** Where [old] occurs, it has a first occurrence. *)
Lemma first_occurrence old s :
  occurs old s →
  ∃ seg rest, s = seg +:+ old +:+ rest ∧
    ∀ n, occurs_at old s n → String.length seg ≤ n.
Proof.
  induction s as [|c s IH]; intros Ho.
  - destruct Ho as (n & pre & post & H & Hn).
    exists "", post. destruct pre; [|done]. split; [done|]. simpl. lia.
  - destruct (PyStr.startswith old (String c s)) eqn:Hs.
    + apply startswith_iff in Hs as [post Hs]. exists "", post.
      rewrite str_app_nil_l. split; [done|]. simpl. lia.
    + destruct IH as (seg & rest & H & Hfirst).
      { destruct Ho as (n & [|d pre] & post & H & Hn).
        - rewrite str_app_nil_l in H.
          assert (PyStr.startswith old (String c s) = true) as Ht
            by (apply startswith_iff; eauto). congruence.
        - rewrite str_app_cons in H. simplify_eq.
          by exists (String.length pre), pre, post. }
      exists (String c seg), rest. rewrite str_app_cons, <- H. split; [done|].
      intros n (pre & post & H' & Hn). destruct pre as [|d pre].
      * rewrite str_app_nil_l in H'.
        assert (PyStr.startswith old (String c s) = true) as Ht
          by (apply startswith_iff; eauto). congruence.
      * rewrite str_app_cons in H'. simplify_eq. simpl.
        assert (String.length seg ≤ String.length pre); [|lia].
        apply Hfirst. by exists pre, post.
Qed.

Lemma replace_go_replaced_all old new s :
  old ≠ "" → replaced_all old new s (PyStr.replace_go old new 0 s).
Proof.
  intros Hold.
  remember (String.length s) as m eqn:Hm.
  revert s Hm. induction (lt_wf m) as [m _ IH]. intros s ->.
  destruct (PyStr.contains old s) eqn:Hc.
  - apply contains_iff, first_occurrence in Hc as (seg & rest & -> & Hfirst).
    rewrite replace_go_first by done. constructor; [done|].
    apply (IH (String.length rest)); [|done].
    rewrite !str_length_app. destruct old; [done|]. simpl. lia.
  - apply contains_false_iff in Hc. rewrite replace_go_absent by done.
    by constructor.
Qed.

Lemma replace_replaced_all old new s :
  old ≠ "" → replaced_all old new s (PyStr.replace old new s).
Proof.
  intros Hold. unfold PyStr.replace. destruct old; [done|]. simpl PyStr.truthy.
  cbv iota. by apply replace_go_replaced_all.
Qed.

(** The relation leaves no choice: it names one result. *)
Lemma replaced_all_unique old new s s1 s2 :
  replaced_all old new s s1 → replaced_all old new s s2 → s1 = s2.
Proof.
  intros H1. revert s2. induction H1 as [s Hno|seg rest rest' Hfirst H1 IH];
    intros s2 H2.
  - inversion H2 as [|seg rest rest' Hf Hr]; [done|]. subst.
    exfalso. apply Hno. by exists (String.length seg), seg, rest.
  - remember (seg +:+ old +:+ rest) as s eqn:Hs.
    destruct H2 as [s Hno|seg2 rest2 rest2' Hfirst2 H2].
    + exfalso. apply Hno. subst s. by exists (String.length seg), seg, rest.
    + assert (String.length seg = String.length seg2) as Hl.
      { apply Nat.le_antisymm.
        - apply Hfirst. by exists seg2, rest2.
        - apply Hfirst2. rewrite Hs. by exists seg, rest. }
      symmetry in Hs.
      destruct (str_app_inv_length _ _ _ _ Hs Hl) as [-> Hrest].
      apply (inj (String.app old)) in Hrest. subst rest2.
      by rewrite (IH _ H2).
Qed.

Lemma universal_newlines_id s :
  PyStr.contains (String PyStr.CR "") s = false →
  PyStr.universal_newlines s = s.
Proof.
  induction s as [|c s IH]; [done|]. simpl.
  intros [Hc Hs]%orb_false_iff.
  repeat case_decide; try done; subst.
  - by rewrite IH.
Qed.

End Replace.

Section Resolution.

Implicit Types (ns : gmap (list string) node) (cur comps loc : list string).

Lemma node_at_snoc ns cur c : node_at ns (cur ++ [c]) = ns !! (cur ++ [c]).
Proof. unfold node_at. by destruct cur. Qed.

(** What resolution finds is what the tree holds there. *)
Lemma walk_found_file ns cur comps slash loc d :
  walk ns cur comps slash = Found loc (File d) → ns !! loc = Some (File d).
Proof.
  revert cur. induction comps as [|c rest IH]; intros cur; simpl; [done|].
  repeat case_decide; [apply IH..|].
  destruct (name_too_long c); [done|].
  rewrite node_at_snoc.
  destruct (ns !! (cur ++ [c])) as [[d'|]|] eqn:E; [| apply IH |].
  - destruct rest; [destruct slash|]; intros; by simplify_eq.
  - destruct rest; intros; by simplify_eq.
Qed.

Lemma walk_missing ns cur comps slash loc sl :
  walk ns cur comps slash = Missing loc sl → ns !! loc = None ∧ sl = slash.
Proof.
  revert cur. induction comps as [|c rest IH]; intros cur; simpl; [done|].
  repeat case_decide; [apply IH..|].
  destruct (name_too_long c); [done|].
  rewrite node_at_snoc.
  destruct (ns !! (cur ++ [c])) as [[d'|]|] eqn:E; [| apply IH |].
  - destruct rest; [destruct slash|]; intros; by simplify_eq.
  - destruct rest; intros; by simplify_eq.
Qed.

(** After a file is written where resolution ended, the path names it. *)
Lemma walk_write ns cur comps loc t :
  (∃ d, walk ns cur comps false = Found loc (File d)) ∨
    walk ns cur comps false = Missing loc false →
  walk (<[loc := File t]> ns) cur comps false = Found loc (File t).
Proof.
  revert cur. induction comps as [|c rest IH]; intros cur; simpl.
  { intros [[d ?]|?]; done. }
  repeat case_decide; [apply IH..|].
  destruct (name_too_long c) eqn:Hlong; [by intros [[? ?]|?]|].
  rewrite !node_at_snoc. intros Hw.
  assert (ns !! loc = None ∨ ∃ d, ns !! loc = Some (File d)) as Hloc.
  { destruct Hw as [[d Hw]|Hw].
    - right. exists d. apply (walk_found_file ns cur (c :: rest) false).
      simpl. repeat case_decide; try done. by rewrite Hlong, node_at_snoc.
    - left. apply (walk_missing ns cur (c :: rest) false loc false).
      simpl. repeat case_decide; try done. by rewrite Hlong, node_at_snoc. }
  destruct (ns !! (cur ++ [c])) as [[d'|]|] eqn:E.
  - destruct rest; [|destruct Hw as [[? ?]|?]; done].
    assert (cur ++ [c] = loc) as <- by (destruct Hw as [[? ?]|?]; by simplify_eq).
    by rewrite lookup_insert_eq.
  - rewrite lookup_insert_ne, E; [by apply IH|].
    intros ->. destruct Hloc as [?|[? ?]]; congruence.
  - destruct rest; [|destruct Hw as [[? ?]|?]; done].
    assert (cur ++ [c] = loc) as <- by (destruct Hw as [[? ?]|?]; by simplify_eq).
    by rewrite lookup_insert_eq.
Qed.

(** A path ending in a separator names no regular file. *)
Lemma walk_slash_no_file ns cur comps loc d :
  walk ns cur comps true ≠ Found loc (File d).
Proof.
  revert cur. induction comps as [|c rest IH]; intros cur; simpl; [done|].
  repeat case_decide; [apply IH..|].
  destruct (name_too_long c); [done|].
  destruct (node_at ns (cur ++ [c])) as [[d'|]|]; [|apply IH|];
    destruct rest; done.
Qed.

(** A path that resolves to a node or to a missing name holds no NUL, is
    shorter than [PATH_MAX], and was walked. *)
Lemma resolve_walked fs path :
  (PyStr.truthy path = true ∧ PyStr.has_nul path = false ∧
   path_too_long path = false ∧
   resolve fs path = walk (nodes fs) (start fs path) (PosixPath.components path)
                          (PosixPath.endswith_sep path)) ∨
  resolve fs path = NoEntry ∨ resolve fs path = Invalid ∨ resolve fs path = TooLong.
Proof.
  unfold resolve. destruct (PyStr.truthy path); [|tauto].
  destruct (PyStr.has_nul path); [tauto|].
  destruct (path_too_long path); tauto.
Qed.

Lemma resolve_found fs path loc n :
  resolve fs path = Found loc n →
  PyStr.truthy path = true ∧ PyStr.has_nul path = false ∧
  path_too_long path = false ∧
  walk (nodes fs) (start fs path) (PosixPath.components path)
       (PosixPath.endswith_sep path) = Found loc n.
Proof.
  destruct (resolve_walked fs path) as [(? & ? & ? & E)|[E|[E|E]]];
    rewrite E; [auto|done..].
Qed.

Lemma resolve_missing fs path loc sl :
  resolve fs path = Missing loc sl →
  PyStr.truthy path = true ∧ PyStr.has_nul path = false ∧
  path_too_long path = false ∧
  walk (nodes fs) (start fs path) (PosixPath.components path)
       (PosixPath.endswith_sep path) = Missing loc sl.
Proof.
  destruct (resolve_walked fs path) as [(? & ? & ? & E)|[E|[E|E]]];
    rewrite E; [auto|done..].
Qed.

Lemma resolve_fits fs path :
  PyStr.truthy path = true → PyStr.has_nul path = false →
  path_too_long path = false →
  resolve fs path = walk (nodes fs) (start fs path) (PosixPath.components path)
                         (PosixPath.endswith_sep path).
Proof. unfold resolve. by intros -> -> ->. Qed.

Lemma stored_resolve fs path data :
  stored fs path = Some data ↔ ∃ loc, resolve fs path = Found loc (File data).
Proof.
  unfold stored.
  destruct (resolve fs path) as [loc [d|]|loc sl| | | |]; split;
    try done; try (intros [? ?]; done).
  - intros [= ->]. eauto.
  - intros [? [= _ ->]]. done.
Qed.

Lemma write_text_stored fs path t :
  (∃ loc d, resolve fs path = Found loc (File d)) ∨
    (∃ loc, resolve fs path = Missing loc false) →
  ∃ loc, write_text fs path t =
           (Returns (), set_nodes fs (<[loc := File t]> (nodes fs))) ∧
         resolve (set_nodes fs (<[loc := File t]> (nodes fs))) path
           = Found loc (File t) ∧
         (resolve fs path = Missing loc false ∨
          ∃ d, resolve fs path = Found loc (File d)).
Proof.
  intros H.
  assert (∃ loc, (∃ d, resolve fs path = Found loc (File d)) ∨
                 resolve fs path = Missing loc false) as [loc Hr].
  { destruct H as [(loc & d & ?)|(loc & ?)]; exists loc; eauto. }
  exists loc. split; [|split].
  - unfold write_text. destruct Hr as [[d ->]| ->]; done.
  - assert (PyStr.truthy path = true ∧ PyStr.has_nul path = false ∧
            path_too_long path = false) as (Ht & Hn & Hl).
    { destruct Hr as [[d Hr]|Hr];
        [apply resolve_found in Hr|apply resolve_missing in Hr]; tauto. }
    rewrite (resolve_fits _ path) by done.
    rewrite (resolve_fits fs path) in Hr by done.
    simpl. unfold start in *. simpl.
    destruct (PosixPath.endswith_sep path).
    + destruct Hr as [[d Hr]|Hr].
      * by apply walk_slash_no_file in Hr.
      * apply walk_missing in Hr as [_ ?]. done.
    + by apply walk_write.
  - destruct Hr as [?|?]; eauto.
Qed.

End Resolution.

(** C5.  An existing file whose text, as [open(path, "r")] reads it (CR LF
    and CR turned into LF), holds the non-empty [old_text]: [edit_file]
    overwrites the file with that text in which every occurrence of
    [old_text] is replaced by [new_text] and nothing else is changed, leaves
    every other node alone, and reports the edit; a file free of CR is read
    as it is stored, so there the new content is the old content with every
    occurrence replaced. *)
Theorem edit_replaces_every_occurrence
    (fs : filesystem) (path data old_text new_text : string) :
  stored fs path = Some data →
  old_text ≠ "" →
  occurs old_text (PyStr.universal_newlines data) →
  ∃ loc text',
    _edit_file path old_text new_text fs =
      (Returns ("成功编辑 " +:+ path),
       set_nodes fs (<[loc := File text']> (nodes fs))) ∧
    nodes fs !! loc = Some (File data) ∧
    stored (set_nodes fs (<[loc := File text']> (nodes fs))) path = Some text' ∧
    replaced_all old_text new_text (PyStr.universal_newlines data) text' ∧
    (PyStr.contains (String PyStr.CR "") data = false →
       replaced_all old_text new_text data text').
Proof.
  intros [loc Hr]%stored_resolve Hold Hocc.
  destruct (write_text_stored fs path
              (PyStr.replace old_text new_text (PyStr.universal_newlines data)))
    as (loc' & Hw & Hr' & Hcase); [left; eauto|].
  assert (loc' = loc) as ->.
  { destruct Hcase as [?|[? ?]]; congruence. }
  exists loc, (PyStr.replace old_text new_text (PyStr.universal_newlines data)).
  split_and!.
  - apply contains_iff in Hocc.
    assert (exists_ fs path = true) as He by (unfold exists_; by rewrite Hr).
    assert (read_text fs path = Returns (PyStr.universal_newlines data)) as Hrd
      by (unfold read_text; by rewrite Hr).
    unfold _edit_file. run_M. rewrite He.
    destruct old_text; [done|]. simpl. rewrite Hrd, Hocc. simpl. by rewrite Hw.
  - apply resolve_found in Hr as (_ & _ & _ & Hr).
    by apply walk_found_file in Hr.
  - apply stored_resolve. eauto.
  - by apply replace_replaced_all.
  - intros Hcr. rewrite (universal_newlines_id data Hcr).
    by apply replace_replaced_all.
Qed.

Lemma edit_replaces_every_occurrence_witness :
  stored Sample.tree "z" = Some "zz" ∧ "z" ≠ "" ∧
  occurs "z" (PyStr.universal_newlines "zz") ∧
  ∃ loc,
    _edit_file "z" "z" "y" Sample.tree =
      (Returns "成功编辑 z", set_nodes Sample.tree (<[loc := File "yy"]> (nodes Sample.tree))).
Proof.
  assert (occurs "z" (PyStr.universal_newlines "zz")) as Ho.
  { exists 0, "", "z". split; reflexivity. }
  split; [reflexivity|]. split; [discriminate|]. split; [exact Ho|].
  destruct (edit_replaces_every_occurrence Sample.tree "z" "zz" "z" "y")
    as (loc & text' & He & _ & _ & Hrep & _); [reflexivity|discriminate|exact Ho|].
  exists loc. rewrite He. do 4 f_equal.
  apply (replaced_all_unique "z" "y" "zz"); [exact Hrep|].
  apply (replace_replaced_all "z" "y" "zz"). discriminate.
Defined.

(** C5 as the claim words it fails.  Taken on the stored content, it fails
    on a file with Windows line endings: [d/f.txt] holds "a", CR, LF, "b";
    replacing "a" by "c" stores "c", LF, "b", which is not the old content
    with "a" replaced, for the CR is gone.  Taken on the content as
    [read_file] shows it, it fails when [new_text] brings a CR: replacing
    "z" by CR LF in "zz" reads back as LF LF. *)
Lemma edit_drops_carriage_returns :
  (stored Sample.tree "d/f.txt" = Some Sample.crlf_text ∧
   occurs "a" Sample.crlf_text ∧
   ∃ text',
     stored (_edit_file "d/f.txt" "a" "c" Sample.tree).2 "d/f.txt" = Some text' ∧
     ¬ replaced_all "a" "c" Sample.crlf_text text') ∧
  (let new_text := String PyStr.CR (String PyStr.LF "") in
   let fs' := (_edit_file "z" "z" new_text Sample.tree).2 in
   stored Sample.tree "z" = Some "zz" ∧
   occurs "z" "zz" ∧
   ∃ text',
     _read_file "z" fs' =
       (Returns ("文件 z 的内容:" +:+ PyStr.nl +:+ text'), fs') ∧
     ¬ replaced_all "z" new_text "zz" text').
Proof.
  split.
  - split; [reflexivity|]. split.
    { exists 0, "", (String PyStr.CR (String PyStr.LF "b")). split; reflexivity. }
    exists (String "c" (String PyStr.LF "b")). split; [vm_compute; reflexivity|].
    intros H.
    pose proof (replaced_all_unique _ _ _ _ _ H
                  (replace_replaced_all "a" "c" Sample.crlf_text ltac:(discriminate))) as E.
    vm_compute in E. discriminate E.
  - intros new_text fs'. split; [reflexivity|]. split.
    { exists 0, "", "z". split; reflexivity. }
    exists (String PyStr.LF (String PyStr.LF "")). split; [vm_compute; reflexivity|].
    intros H.
    pose proof (replaced_all_unique _ _ _ _ _ H
                  (replace_replaced_all "z" new_text "zz" ltac:(discriminate))) as E.
    vm_compute in E. discriminate E.
Qed.

(** C6.  An existing file whose text, as [open(path, "r")] reads it, does
    not hold the non-empty [old_text]: [edit_file] answers that the text was
    not found and writes nothing -- the whole file system is as before.  A
    file free of CR is read as it is stored. *)
Theorem edit_absent_text_writes_nothing
    (fs : filesystem) (path data old_text new_text : string) :
  stored fs path = Some data →
  old_text ≠ "" →
  ¬ occurs old_text (PyStr.universal_newlines data) →
  _edit_file path old_text new_text fs =
    (Returns ("文件中未找到文本: " +:+ old_text), fs) ∧
  (PyStr.contains (String PyStr.CR "") data = false →
     PyStr.universal_newlines data = data).
Proof.
  intros [loc Hr]%stored_resolve Hold Hno. split.
  - apply contains_false_iff in Hno.
    assert (exists_ fs path = true) as He by (unfold exists_; by rewrite Hr).
    assert (read_text fs path = Returns (PyStr.universal_newlines data)) as Hrd
      by (unfold read_text; by rewrite Hr).
    unfold _edit_file. run_M. rewrite He.
    destruct old_text; [done|]. simpl. by rewrite Hrd, Hno.
  - apply universal_newlines_id.
Qed.

Lemma edit_absent_text_writes_nothing_witness :
  stored Sample.tree "z" = Some "zz" ∧ "q" ≠ "" ∧
  ¬ occurs "q" (PyStr.universal_newlines "zz") ∧
  _edit_file "z" "q" "y" Sample.tree = (Returns "文件中未找到文本: q", Sample.tree).
Proof.
  assert (¬ occurs "q" (PyStr.universal_newlines "zz")) as Hno.
  { apply contains_false_iff. reflexivity. }
  split; [reflexivity|]. split; [discriminate|]. split; [exact Hno|].
  apply (edit_absent_text_writes_nothing Sample.tree "z" "zz" "q" "y");
    [reflexivity|discriminate|exact Hno].
Defined.

(** C6 as the claim words it, on the stored content, fails on the same
    file: its stored content does not hold "a", LF, "b", yet the text read
    does, so the edit goes through and the file is rewritten. *)
Lemma edit_finds_text_across_carriage_return :
  let old_text := String "a" (String PyStr.LF "b") in
  stored Sample.tree "d/f.txt" = Some Sample.crlf_text ∧
  old_text ≠ "" ∧
  ¬ occurs old_text Sample.crlf_text ∧
  (_edit_file "d/f.txt" old_text "c" Sample.tree).1 = Returns "成功编辑 d/f.txt" ∧
  stored (_edit_file "d/f.txt" old_text "c" Sample.tree).2 "d/f.txt" = Some "c".
Proof.
  intros old_text. split; [reflexivity|]. split; [discriminate|]. split.
  { apply contains_false_iff. reflexivity. }
  split; vm_compute; reflexivity.
Qed.

Section Paths.

Implicit Types (p a b name : string).

Lemma split_sep_nonempty p : PosixPath.split_sep p ≠ [].
Proof.
  destruct p as [|c p]; simpl; [done|].
  destruct (PosixPath.is_sep c); [done|].
  destruct (PosixPath.split_sep p); done.
Qed.

Lemma split_sep_app_sep a b :
  PosixPath.split_sep (a +:+ String "/" b) =
    PosixPath.split_sep a ++ PosixPath.split_sep b.
Proof.
  induction a as [|c a IH]; [done|].
  rewrite str_app_cons. simpl. rewrite IH.
  destruct (PosixPath.is_sep c); [done|].
  pose proof (split_sep_nonempty a).
  destruct (PosixPath.split_sep a); done.
Qed.

Lemma split_sep_name name :
  PosixPath.has_sep name = false → PosixPath.split_sep name = [name].
Proof.
  induction name as [|c name IH]; [done|]. simpl.
  intros [-> Hn]%orb_false_iff. by rewrite IH.
Qed.

Lemma components_app_sep a b :
  PosixPath.components (a +:+ String "/" b) =
    PosixPath.components a ++ PosixPath.components b.
Proof. unfold PosixPath.components. by rewrite split_sep_app_sep, filter_app. Qed.

Lemma components_name name :
  name ≠ "" → PosixPath.has_sep name = false → PosixPath.components name = [name].
Proof.
  intros Hne Hs. unfold PosixPath.components. rewrite split_sep_name by done.
  by rewrite filter_cons_True.
Qed.


Lemma endswith_sep_app_name a name :
  name ≠ "" → PosixPath.has_sep name = false →
  PosixPath.endswith_sep (a +:+ name) = false.
Proof.
  intros Hne Hs. induction a as [|c a IH].
  - rewrite str_app_nil_l. clear Hne. induction name as [|c name IH]; [done|].
    simpl in *. apply orb_false_iff in Hs as [Hc Hs]. destruct name; [done|]. by apply IH.
  - rewrite str_app_cons. simpl. destruct (a +:+ name) eqn:E; [|done].
    destruct a; [|done]. by rewrite str_app_nil_l in E.
Qed.


Lemma split_sep_no_sep p :
  Forall (λ c, PosixPath.has_sep c = false) (PosixPath.split_sep p).
Proof.
  induction p as [|c p IH]; simpl; [by repeat constructor|].
  destruct (PosixPath.is_sep c) eqn:Hc; [by constructor|].
  destruct (PosixPath.split_sep p) as [|piece rest]; [by repeat constructor; simpl; rewrite Hc|].
  apply Forall_cons in IH as [Hp Hrest]. constructor; [|done]. simpl. by rewrite Hc, Hp.
Qed.

Lemma components_ok p : Forall comp_ok (PosixPath.components p).
Proof.
  apply Forall_forall. intros c [Hne Hin]%list_elem_of_filter. split; [done|].
  pose proof (split_sep_no_sep p) as H. rewrite Forall_forall in H. by apply H.
Qed.

Lemma split_sep_no_char (ch : ascii) p :
  PyStr.has_char ch p = false →
  Forall (λ c, PyStr.has_char ch c = false) (PosixPath.split_sep p).
Proof.
  induction p as [|c p IH]; simpl; [by repeat constructor|].
  intros [Hc Hp]%orb_false_iff. specialize (IH Hp).
  destruct (PosixPath.is_sep c); [by constructor|].
  destruct (PosixPath.split_sep p) as [|piece rest];
    [by repeat constructor; simpl; rewrite Hc|].
  apply Forall_cons in IH as [Hpiece Hrest].
  constructor; [|done]. simpl. by rewrite Hc, Hpiece.
Qed.

Lemma components_no_nul p :
  PyStr.has_nul p = false →
  Forall (λ c, PyStr.has_nul c = false) (PosixPath.components p).
Proof.
  intros Hp. apply Forall_forall. intros c [_ Hin]%list_elem_of_filter.
  pose proof (split_sep_no_char PyStr.NUL p Hp) as H.
  rewrite Forall_forall in H. by apply H.
Qed.

(** The names of [prefixed] are the components. *)
Lemma prefixes_go_fst before pieces :
  (PosixPath.prefixes_go before pieces).*1 = filter (λ piece, piece ≠ "") pieces.
Proof.
  revert before. induction pieces as [|piece rest IH]; intros before; [done|].
  simpl. rewrite fmap_app, IH. rewrite (filter_cons _ piece).
  by repeat case_decide.
Qed.

Lemma prefixed_fst p : (PosixPath.prefixed p).*1 = PosixPath.components p.
Proof. apply prefixes_go_fst. Qed.

(** A path is its pieces with separators between them. *)
Lemma join_split_sep p : PyStr.join "/" (PosixPath.split_sep p) = p.
Proof.
  induction p as [|c p IH]; [done|]. simpl.
  pose proof (split_sep_nonempty p) as Hne.
  destruct (PosixPath.is_sep c) eqn:Hc.
  - unfold PosixPath.is_sep in Hc. apply bool_decide_eq_true in Hc as ->.
    destruct (PosixPath.split_sep p) as [|piece rest]; [done|].
    change (PyStr.join "/" ("" :: piece :: rest))
      with ("" +:+ "/" +:+ PyStr.join "/" (piece :: rest)).
    by rewrite IH.
  - destruct (PosixPath.split_sep p) as [|piece [|piece' rest]]; [done| |].
    + simpl in *. by rewrite IH.
    + change (PyStr.join "/" (String c piece :: piece' :: rest))
        with (String c piece +:+ "/" +:+ PyStr.join "/" (piece' :: rest)).
      change (PyStr.join "/" (piece :: piece' :: rest))
        with (piece +:+ "/" +:+ PyStr.join "/" (piece' :: rest)) in IH.
      by rewrite str_app_cons, IH.
Qed.

(** Each prefix ends with its name and is the path, or the path up to a
    separator. *)
Lemma prefixes_go_prefix before pieces c pre :
  (c, pre) ∈ PosixPath.prefixes_go before pieces →
  c ≠ "" ∧ c ∈ pieces ∧ (∃ b, pre = b +:+ c) ∧
  (before +:+ PyStr.join "/" pieces = pre ∨
   ∃ t, before +:+ PyStr.join "/" pieces = pre +:+ String "/" t).
Proof.
  revert before. induction pieces as [|piece rest IH]; intros before.
  { by intros ?%elem_of_nil. }
  cbn [PosixPath.prefixes_go].
  assert (before +:+ PyStr.join "/" (piece :: rest) =
          match rest with
          | [] => before +:+ piece
          | _ => (before +:+ piece +:+ "/") +:+ PyStr.join "/" rest
          end) as Hj.
  { destruct rest; [done|].
    change (PyStr.join "/" (piece :: s :: rest))
      with (piece +:+ "/" +:+ PyStr.join "/" (s :: rest)).
    by rewrite !str_app_assoc. }
  intros [Hin|Hin]%elem_of_app.
  - case_decide; [by apply elem_of_nil in Hin|].
    apply list_elem_of_singleton in Hin as [= -> ->].
    split_and!; [done|by left|by eexists|].
    rewrite Hj. destruct rest; [by left|]. right.
    exists (PyStr.join "/" (s :: rest)). by rewrite !str_app_assoc.
  - destruct (IH _ Hin) as (Hne & Hc & Hb & Hw).
    split_and!; [done|by right|done|].
    rewrite Hj. destruct rest; [by apply elem_of_nil in Hc|].
    by rewrite !str_app_assoc in Hw |- *.
Qed.

Lemma prefixed_prefix p c pre :
  (c, pre) ∈ PosixPath.prefixed p →
  comp_ok c ∧ (∃ b, pre = b +:+ c) ∧ (p = pre ∨ ∃ t, p = pre +:+ String "/" t).
Proof.
  intros (Hne & Hc & Hb & Hw)%prefixes_go_prefix.
  rewrite str_app_nil_l, join_split_sep in Hw. split_and!; [|done..].
  split; [done|].
  pose proof (split_sep_no_sep p) as H. rewrite Forall_forall in H. by apply H.
Qed.

(** Every prefix is at most as long as the path. *)
Lemma prefixed_length p c pre :
  (c, pre) ∈ PosixPath.prefixed p → String.length pre ≤ String.length p.
Proof.
  intros (_ & _ & [->|[t ->]])%prefixed_prefix; [done|].
  rewrite str_length_app. lia.
Qed.

End Paths.

Section Listing.

Implicit Types (ns : gmap (list string) node) (cur comps loc k : list string).


(** Going one name further down from a directory the walk has reached. *)
Lemma walk_child ns cur comps slash loc name :
  walk ns cur comps slash = Found loc Dir →
  name ≠ "." → name ≠ ".." → name_too_long name = false →
  walk ns cur (comps ++ [name]) false =
    match ns !! (loc ++ [name]) with
    | Some n => Found (loc ++ [name]) n
    | None => Missing (loc ++ [name]) false
    end.
Proof.
  intros Hw Hd Hdd Hlong. revert cur Hw.
  induction comps as [|c rest IH]; intros cur; simpl.
  - intros [= ->]. repeat case_decide; try done. rewrite Hlong.
    rewrite node_at_snoc. by destruct (ns !! (loc ++ [name])) as [[d|]|].
  - repeat case_decide; [apply IH..|].
    destruct (name_too_long c); [done|].
    destruct (node_at ns (cur ++ [c])) as [[d|]|]; [|apply IH|].
    + destruct rest; [destruct slash|]; done.
    + destruct rest; done.
Qed.












End Listing.

Lemma sample_tree_wf : wf Sample.tree.
Proof. by apply (bool_decide_unpack _); vm_compute. Qed.




Section Dirname.

Implicit Types (p h tail : string).

Lemma has_sep_head_nonempty p :
  PosixPath.has_sep p = true → PosixPath.head_upto_sep p ≠ "".
Proof.
  destruct p as [|c p]; [done|]. simpl.
  destruct (PosixPath.has_sep p); [done|].
  rewrite orb_false_r. by intros ->.
Qed.

(** A path is its head, which is empty or ends in a separator, followed by
    a last piece free of separators. *)
Lemma head_tail p :
  ∃ tail, p = PosixPath.head_upto_sep p +:+ tail ∧
    PosixPath.has_sep tail = false ∧
    (PosixPath.head_upto_sep p = "" ∨
     ∃ h, PosixPath.head_upto_sep p = h +:+ "/").
Proof.
  induction p as [|c p (tail & Hp & Ht & Hh)]; [by exists ""; auto|].
  simpl. destruct (PosixPath.has_sep p) eqn:Hs.
  - exists tail. rewrite str_app_cons, <- Hp. split_and!; [done..|]. right.
    destruct Hh as [Hh|[h Hh]]; [by apply has_sep_head_nonempty in Hs|].
    exists (String c h). by rewrite str_app_cons, Hh.
  - destruct (PosixPath.is_sep c) eqn:Hc.
    + exists p. unfold PosixPath.is_sep in Hc. apply bool_decide_eq_true in Hc as ->.
      split_and!; [done..|]. right. by exists "".
    + exists (String c p). split_and!; [done| |by left]. simpl. by rewrite Hc, Hs.
Qed.

Lemma endswith_sep_app_sep h : PosixPath.endswith_sep (h +:+ "/") = true.
Proof.
  induction h as [|c h IH]; [done|]. rewrite str_app_cons. simpl.
  destruct (h +:+ "/") eqn:E; [by destruct h|done].
Qed.

Lemma components_all_sep p : PosixPath.all_sep p = true → PosixPath.components p = [].
Proof.
  induction p as [|c p IH]; [done|]. simpl.
  intros [Hc Hp]%andb_true_iff. unfold PosixPath.is_sep in Hc.
  apply bool_decide_eq_true in Hc as ->.
  change (String PosixPath.sep p) with ("" +:+ String "/" p).
  rewrite components_app_sep, IH by done. done.
Qed.

Lemma rstrip_sep_split p :
  ∃ seps, p = PosixPath.rstrip_sep p +:+ seps ∧ PosixPath.all_sep seps = true.
Proof.
  induction p as [|c p (seps & Hp & Hs)]; [by exists ""|]. simpl.
  destruct (PosixPath.is_sep c && negb (PyStr.truthy (PosixPath.rstrip_sep p))) eqn:E.
  - apply andb_true_iff in E as [Hc Hr].
    exists (String c seps). split.
    + rewrite str_app_nil_l. f_equal. rewrite Hp.
      by destruct (PosixPath.rstrip_sep p).
    + simpl. by rewrite Hc, Hs.
  - exists seps. by rewrite str_app_cons, <- Hp.
Qed.

Lemma components_app_all_sep p seps :
  PosixPath.all_sep seps = true →
  PosixPath.components (p +:+ seps) = PosixPath.components p.
Proof.
  destruct seps as [|c seps]; [by rewrite str_app_nil_r|]. simpl.
  intros [Hc Hs]%andb_true_iff. unfold PosixPath.is_sep in Hc.
  apply bool_decide_eq_true in Hc as ->.
  rewrite components_app_sep, (components_all_sep seps Hs). by rewrite app_nil_r.
Qed.

Lemma components_rstrip_sep p :
  PosixPath.components (PosixPath.rstrip_sep p) = PosixPath.components p.
Proof.
  destruct (rstrip_sep_split p) as (seps & Hp & Hs).
  rewrite Hp at 2. by rewrite components_app_all_sep.
Qed.

Lemma rstrip_sep_first c p :
  PosixPath.all_sep (String c p) = false →
  ∃ r, PosixPath.rstrip_sep (String c p) = String c r.
Proof.
  simpl. intros Ha.
  destruct (PosixPath.is_sep c && negb (PyStr.truthy (PosixPath.rstrip_sep p))) eqn:E;
    [|eauto].
  apply andb_true_iff in E as [Hc Hr]. rewrite Hc in Ha. simpl in Ha.
  destruct (rstrip_sep_split p) as (seps & Hp & Hs).
  destruct (PosixPath.rstrip_sep p); [|done].
  rewrite str_app_nil_l in Hp. congruence.
Qed.

(** [os.path.dirname] names the directories a path goes through before its
    last name. *)
Lemma dirname_components p :
  PosixPath.endswith_sep p = false →
  PosixPath.components (PosixPath.dirname p) = removelast (PosixPath.components p) ∧
  (PyStr.truthy (PosixPath.dirname p) = true →
     PosixPath.isabs (PosixPath.dirname p) = PosixPath.isabs p).
Proof.
  intros He. destruct (head_tail p) as (tail & Hp & Ht & Hh).
  unfold PosixPath.dirname.
  destruct Hh as [Hh|[h Hh]].
  - rewrite Hh in *. simpl. rewrite str_app_nil_l in Hp. subst tail. split; [|done].
    unfold PosixPath.components. rewrite (split_sep_name p) by done.
    rewrite (filter_cons _ p). by case_decide.
  - assert (tail ≠ "") as Hne.
    { intros ->. rewrite str_app_nil_r in Hp. rewrite Hp, Hh in He.
      by rewrite endswith_sep_app_sep in He. }
    assert (PosixPath.components p = PosixPath.components h ++ [tail]) as Hc.
    { rewrite Hp, Hh, str_app_assoc. change ("/" +:+ tail) with (String "/" tail).
      by rewrite components_app_sep, (components_name tail). }
    assert (PosixPath.components (PosixPath.head_upto_sep p) = PosixPath.components h) as Hch.
    { rewrite Hh. rewrite (components_app_sep h ""). apply app_nil_r. }
    assert (PosixPath.isabs p = PosixPath.isabs (PosixPath.head_upto_sep p)) as Hab.
    { rewrite Hp at 1. destruct (PosixPath.head_upto_sep p) eqn:E; [by destruct h|done]. }
    rewrite Hc, removelast_last.
    destruct (PosixPath.head_upto_sep p) as [|c hd] eqn:E; [by destruct h|].
    simpl PyStr.truthy. cbv iota. rewrite andb_true_l.
    destruct (PosixPath.all_sep (String c hd)) eqn:Ha; simpl negb; cbv iota.
    + split; [done|]. by rewrite Hab.
    + rewrite components_rstrip_sep. split; [done|].
      destruct (rstrip_sep_first c hd Ha) as [r ->]. by rewrite Hab.
Qed.

(** The directory name is the beginning of the path. *)
Lemma dirname_prefix p : ∃ t, p = PosixPath.dirname p +:+ t.
Proof.
  destruct (head_tail p) as (tail & Hp & _ & _).
  unfold PosixPath.dirname.
  destruct (PyStr.truthy (PosixPath.head_upto_sep p) &&
            negb (PosixPath.all_sep (PosixPath.head_upto_sep p))); [|by exists tail].
  destruct (rstrip_sep_split (PosixPath.head_upto_sep p)) as (seps & Hs & _).
  exists (seps +:+ tail). by rewrite <- str_app_assoc, <- Hs.
Qed.

Lemma dirname_length p :
  String.length (PosixPath.dirname p) ≤ String.length p.
Proof.
  destruct (dirname_prefix p) as [t Hp]. rewrite Hp at 2.
  rewrite str_length_app. lia.
Qed.

Lemma dirname_no_nul p :
  PyStr.has_nul p = false → PyStr.has_nul (PosixPath.dirname p) = false.
Proof.
  destruct (dirname_prefix p) as [t Hp]. rewrite Hp at 1.
  unfold PyStr.has_nul. rewrite has_char_app. by intros [? _]%orb_false_iff.
Qed.

Lemma dirname_empty p :
  PosixPath.endswith_sep p = false →
  PyStr.truthy (PosixPath.dirname p) = false →
  removelast (PosixPath.components p) = [] ∧ PosixPath.isabs p = false.
Proof.
  intros He Hd. destruct (dirname_components p He) as [Hc _].
  assert (PosixPath.dirname p = "") as E by (by destruct (PosixPath.dirname p)).
  rewrite E in Hc. split; [by rewrite <- Hc|].
  destruct p as [|c p]; [done|]. unfold PosixPath.isabs. simpl.
  case_decide as Hs; [|done]. subst c. exfalso.
  unfold PosixPath.dirname in E.
  assert (∃ x, PosixPath.head_upto_sep (String "/" p) = String "/" x) as [x Hx].
  { simpl. destruct (PosixPath.has_sep p); eauto. }
  rewrite Hx in E. simpl PyStr.truthy in E. rewrite andb_true_l in E.
  destruct (PosixPath.all_sep (String "/" x)) eqn:Ha; simpl negb in E; [done|].
  destruct (rstrip_sep_first _ _ Ha) as [r Hr]. by rewrite Hr in E.
Qed.

End Dirname.

Section Creation.

Implicit Types (ns : gmap (list string) node) (cur comps loc k : list string).

Lemma made_lookup ns locs k :
  made ns locs !! k =
    match ns !! k with
    | Some n => Some n
    | None => if decide (k ∈ locs) then Some Dir else None
    end.
Proof.
  revert ns. induction locs as [|loc locs IH]; intros ns; simpl.
  - by destruct (ns !! k).
  - rewrite IH. destruct (decide (k = loc)) as [->|Hne].
    + destruct (ns !! loc) as [n|] eqn:E; [by rewrite E|].
      rewrite lookup_insert_eq. by rewrite decide_True by (by left).
    + assert (match ns !! loc with
              | Some _ => ns
              | None => <[loc:=Dir]> ns
              end !! k = ns !! k) as ->.
      { destruct (ns !! loc); [done|]. by rewrite lookup_insert_ne. }
      destruct (ns !! k); [done|].
      destruct (decide (k ∈ locs)) as [Hin|Hin].
      * by rewrite decide_True by (by right).
      * rewrite decide_False; [done|]. by intros [?|?]%elem_of_cons.
Qed.

Lemma mkdirs_made ns cur fresh (comps : list (string * string)) :
  Forall (λ cp, PyStr.has_nul cp.1 = false ∧ name_too_long cp.1 = false ∧
                path_too_long cp.2 = false) comps →
  Forall (no_file_at ns) (trail cur comps.*1) →
  mkdirs ns cur fresh comps = (Returns (), made ns (trail cur comps.*1)).
Proof.
  revert ns cur fresh.
  induction comps as [|[c pre] rest IH]; intros ns cur fresh; simpl; [done|].
  intros [(Hn & Hl & Hp) Hfit]%Forall_cons. simpl in Hn, Hl, Hp.
  rewrite Hp, Hn, Hl, andb_false_r.
  repeat case_decide; [by apply IH..|].
  intros [Hc Hrest]%Forall_cons. rewrite node_at_snoc. simpl.
  destruct (ns !! (cur ++ [c])) as [[d|]|] eqn:E.
  - by destruct (Hc d).
  - by apply IH.
  - apply IH; [done|]. eapply Forall_impl; [exact Hrest|].
    intros loc Hloc d. destruct (decide (loc = cur ++ [c])) as [->|Hne].
    + by rewrite lookup_insert_eq.
    + rewrite lookup_insert_ne by done. apply Hloc.
Qed.

Lemma set_nodes_same fs : set_nodes fs (nodes fs) = fs.
Proof. by destruct fs. Qed.

(** [os.makedirs] on a name that fits and runs through no regular file. *)
(** A walk that goes on after [comps] was in a directory then. *)
Lemma walk_through ns cur comps more slash loc n :
  walk ns cur (comps ++ more) slash = Found loc n → more ≠ [] →
  ∃ l, walk ns cur comps false = Found l Dir.
Proof.
  intros Hw Hmore. revert cur Hw.
  induction comps as [|c rest IH]; intros cur; simpl; [eauto|].
  repeat case_decide; [apply IH..|].
  destruct (name_too_long c); [done|].
  destruct (node_at ns (cur ++ [c])) as [[d|]|]; [|apply IH|].
  - destruct (rest ++ more) eqn:E; [|done].
    by apply app_eq_nil in E as [_ ?].
  - destruct (rest ++ more) eqn:E; [|done].
    by apply app_eq_nil in E as [_ ?].
Qed.

(** Along a path that resolves, every prefix of the directory part
    exists. *)
Lemma prefixes_exist fs p more slash loc n :
  PyStr.has_nul p = false → path_too_long p = false →
  walk (nodes fs) (start fs p) (PosixPath.components p ++ more) slash = Found loc n →
  more ≠ [] →
  ∀ c pre, (c, pre) ∈ PosixPath.prefixed p → exists_ fs pre = true.
Proof.
  intros Hnul Hlen Hw Hmore c pre Hin.
  destruct (prefixed_prefix p c pre Hin) as ([Hne Hsep] & [b Hb] & Hp).
  assert (PyStr.truthy pre = true) as Ht.
  { rewrite Hb. destruct b; [|done]. rewrite str_app_nil_l. by destruct c. }
  assert (PyStr.has_nul pre = false) as Hn.
  { destruct Hp as [<-|[t Hp]]; [done|]. rewrite Hp in Hnul.
    unfold PyStr.has_nul in *. rewrite has_char_app in Hnul.
    by apply orb_false_iff in Hnul as [? _]. }
  assert (path_too_long pre = false) as Hl.
  { apply path_fits. apply path_fits in Hlen.
    pose proof (prefixed_length p c pre Hin). lia. }
  assert (PosixPath.isabs pre = PosixPath.isabs p) as Hab.
  { destruct Hp as [<-|[t ->]]; [done|]. by destruct pre. }
  assert (PosixPath.endswith_sep pre = false) as He.
  { rewrite Hb. by apply endswith_sep_app_name. }
  assert (∃ rest, PosixPath.components p = PosixPath.components pre ++ rest)
    as [rest Hc].
  { destruct Hp as [<-|[t ->]]; [exists []; by rewrite app_nil_r|].
    eexists. apply components_app_sep. }
  rewrite Hc, <- app_assoc in Hw.
  apply walk_through in Hw as [l Hw].
  - unfold exists_. rewrite resolve_fits by done. unfold start in *.
    by rewrite Hab, He, Hw.
  - intros [_ ?]%app_eq_nil. done.
Qed.

Lemma filter_none {A} (P : A → Prop) `{∀ x, Decision (P x)} (l : list A) :
  (∀ x, x ∈ l → ¬ P x) → filter P l = [].
Proof.
  induction l as [|x l IH]; intros Hl; [done|].
  rewrite filter_cons, decide_False by (apply Hl; by left).
  apply IH. intros y Hy. apply Hl. by right.
Qed.

(** Below a path that resolves, [os.makedirs] finds every directory and
    does not call itself. *)
Lemma makedirs_frames_none fs path dirs name slash loc n :
  PyStr.has_nul path = false → path_too_long path = false →
  PosixPath.endswith_sep path = false →
  PosixPath.components path = dirs ++ [name] →
  walk (nodes fs) (start fs path) (dirs ++ [name]) slash = Found loc n →
  makedirs_frames fs (PosixPath.dirname path) = 0.
Proof.
  intros Hnul Hlen Hend Hcomps Hw. unfold makedirs_frames.
  rewrite filter_none; [done|]. intros [c pre] Hin. simpl.
  destruct (dirname_components path Hend) as [Hdc Hdabs].
  rewrite Hcomps, removelast_last in Hdc.
  assert (PyStr.truthy (PosixPath.dirname path) = true) as Ht.
  { destruct (PosixPath.dirname path); [|done]. by apply elem_of_nil in Hin. }
  assert (exists_ fs pre = true) as ->; [|done].
  apply (prefixes_exist fs (PosixPath.dirname path) [name] slash loc n) with (c := c).
  - by apply dirname_no_nul.
  - apply path_fits. apply path_fits in Hlen.
    pose proof (dirname_length path). lia.
  - rewrite Hdc. unfold start in *. by rewrite (Hdabs Ht).
  - done.
  - done.
Qed.

Lemma makedirs_frames_le fs name :
  makedirs_frames fs name ≤ length (PosixPath.components name).
Proof.
  unfold makedirs_frames. rewrite <- prefixed_fst, length_fmap.
  apply length_filter.
Qed.

Lemma makedirs_made fs name :
  PyStr.truthy name = true →
  makedirs_frames fs name ≤ makedirs_room →
  path_too_long name = false →
  Forall (λ c, PyStr.has_nul c = false ∧ name_too_long c = false)
         (PosixPath.components name) →
  Forall (no_file_at (nodes fs)) (trail (start fs name) (PosixPath.components name)) →
  makedirs fs name =
    (Returns (),
     set_nodes fs (made (nodes fs) (trail (start fs name) (PosixPath.components name)))).
Proof.
  intros Ht Hroom Hlen Hnames Hfiles. unfold makedirs. rewrite Ht.
  apply Nat.ltb_ge in Hroom. rewrite Hroom.
  rewrite <- (prefixed_fst name) in Hnames, Hfiles |- *.
  destruct (PosixPath.prefixed name) as [|cp rest] eqn:E.
  { by rewrite Hlen. }
  rewrite mkdirs_made; [done| |done].
  rewrite Forall_forall. intros [c pre] Hin. simpl.
  rewrite Forall_forall in Hnames.
  destruct (Hnames c) as [Hn Hl].
  { apply list_elem_of_fmap. by exists (c, pre). }
  split_and!; [done..|].
  rewrite <- E in Hin. apply prefixed_length in Hin.
  apply path_fits. apply path_fits in Hlen. lia.
Qed.

Lemma walk_dirs ns cur comps slash :
  Forall (λ c, name_too_long c = false) comps →
  (∀ loc, loc ∈ trail cur comps → ns !! loc = Some Dir) →
  walk ns cur comps slash = Found (land cur comps) Dir.
Proof.
  revert cur. induction comps as [|c rest IH]; intros cur; simpl; [done|].
  intros [Hl Hrest]%Forall_cons.
  repeat case_decide; [by apply IH..|].
  intros Hd. rewrite Hl, node_at_snoc, (Hd (cur ++ [c])) by (by left).
  apply IH; [done|]. intros loc Hloc. apply Hd. by right.
Qed.

Lemma components_truthy p c comps :
  PosixPath.components p = c :: comps → PyStr.truthy p = true.
Proof. by destruct p. Qed.

(** The create branch of [_edit_file], when nothing stands in its way. *)
Lemma edit_file_creates fs path old_text new_text dirs name :
  exists_ fs path && PyStr.truthy old_text = false →
  makedirs_frames fs (PosixPath.dirname path) ≤ makedirs_room →
  PyStr.has_nul path = false →
  path_too_long path = false →
  PosixPath.endswith_sep path = false →
  PosixPath.components path = dirs ++ [name] →
  Forall (λ c, name_too_long c = false) (dirs ++ [name]) →
  name ≠ "." → name ≠ ".." →
  Forall (no_file_at (nodes fs)) (trail (start fs path) dirs) →
  nodes fs !! (land (start fs path) dirs ++ [name]) ≠ Some Dir →
  land (start fs path) dirs ++ [name] ∉ trail (start fs path) dirs →
  let fs' :=
    set_nodes fs
      (<[land (start fs path) dirs ++ [name] := File new_text]>
         (made (nodes fs) (trail (start fs path) dirs))) in
  _edit_file path old_text new_text fs = (Returns ("成功创建 " +:+ path), fs') ∧
  resolve fs' path = Found (land (start fs path) dirs ++ [name]) (File new_text).
Proof.
  intros Hmode Hroom Hnul Hlen Hend Hcomps Hnames Hd Hdd Hfiles Htarget Hfresh.
  set (target := land (start fs path) dirs ++ [name]) in *.
  set (ns1 := made (nodes fs) (trail (start fs path) dirs)).
  assert (PyStr.truthy path = true) as Hp.
  { destruct dirs; eapply components_truthy; exact Hcomps. }
  apply Forall_app in Hnames as [Hdirs [Hname _]%Forall_cons].
  destruct (dirname_components path Hend) as [Hdc Hdabs].
  rewrite Hcomps, removelast_last in Hdc.
  (* the directories are made *)
  assert ((if PyStr.truthy (PosixPath.dirname path)
           then λ fs0, makedirs fs0 (PosixPath.dirname path)
           else ret ()) fs = (Returns (), set_nodes fs ns1)) as Hmk.
  { destruct (PyStr.truthy (PosixPath.dirname path)) eqn:Ht.
    - rewrite makedirs_made; [|done|done| | |].
      + assert (start fs (PosixPath.dirname path) = start fs path) as ->
          by (unfold start; by rewrite Hdabs).
        by rewrite Hdc.
      + apply path_fits. apply path_fits in Hlen.
        pose proof (dirname_length path). lia.
      + rewrite Hdc. pose proof (components_no_nul path Hnul) as Hn.
        rewrite Hcomps in Hn. apply Forall_app in Hn as [Hn _].
        rewrite Forall_forall in Hn, Hdirs |- *. intros c Hc. split; auto.
      + assert (start fs (PosixPath.dirname path) = start fs path) as ->
          by (unfold start; by rewrite Hdabs).
        by rewrite Hdc.
    - destruct (PosixPath.dirname path); [|done].
      change (PosixPath.components "") with (@nil string) in Hdc.
      unfold ns1. rewrite <- Hdc. simpl. by rewrite set_nodes_same. }
  (* the path then ends in the last directory *)
  assert (walk ns1 (start fs path) (dirs ++ [name]) false =
            match ns1 !! target with
            | Some n => Found target n
            | None => Missing target false
            end) as Hwalk.
  { apply (walk_child ns1 _ dirs false); [|done..].
    apply walk_dirs; [done|]. intros loc Hloc. unfold ns1. rewrite made_lookup.
    rewrite Forall_forall in Hfiles. specialize (Hfiles loc Hloc).
    destruct (nodes fs !! loc) as [[d|]|] eqn:E; [by destruct (Hfiles d)|done|].
    by rewrite decide_True. }
  assert (ns1 !! target = nodes fs !! target) as Hsame.
  { unfold ns1. rewrite made_lookup. destruct (nodes fs !! target); [done|].
    by rewrite decide_False. }
  assert (resolve (set_nodes fs ns1) path =
            match nodes fs !! target with
            | Some n => Found target n
            | None => Missing target false
            end) as Hres.
  { rewrite resolve_fits by done. rewrite Hend, Hcomps. simpl.
    change (start (set_nodes fs ns1) path) with (start fs path).
    by rewrite Hwalk, Hsame. }
  destruct (write_text_stored (set_nodes fs ns1) path new_text)
    as (loc & Hw & Hr & Hcase).
  { rewrite Hres. destruct (nodes fs !! target) as [[d|]|]; [left|done|right]; eauto. }
  assert (loc = target) as ->.
  { rewrite Hres in Hcase.
    destruct (nodes fs !! target) as [[d|]|]; destruct Hcase as [?|[? ?]]; congruence. }
  split; [|exact Hr].
  unfold _edit_file. run_M. rewrite Hmode.
  destruct (PyStr.truthy (PosixPath.dirname path)).
  - rewrite Hmk. by rewrite Hw.
  - injection Hmk as Hfs. rewrite <- Hfs in Hw. by rewrite Hw.
Qed.

Lemma names_fit (names : list string) :
  Forall (λ c, String.length c ≤ NAME_MAX) names →
  Forall (λ c, name_too_long c = false) names.
Proof. intros H. eapply Forall_impl; [exact H|]. intros c. apply name_fits. Qed.

End Creation.

(** C7.  [edit_file] where the file does not exist or [old_text] is empty,
    on a path the system accepts -- no NUL in it, fewer than [PATH_MAX]
    bytes, no name of more than [NAME_MAX] bytes -- that does not end in a
    separator, whose last component is a file name, that passes through no
    regular file, and that names no directory -- neither one that exists
    nor one made on the way: every directory the path passes through is
    there afterwards (made when it was missing), [new_text] is the whole
    content of the file, whether the file was there before or not, nothing
    else is changed, and the answer reports the creation. *)
Theorem edit_creates_file
    (fs : filesystem) (path old_text new_text : string)
    (dirs : list string) (name : string) :
  exists_ fs path = false ∨ old_text = "" →
  PyStr.has_nul path = false →
  String.length path < PATH_MAX →
  PosixPath.endswith_sep path = false →
  PosixPath.components path = dirs ++ [name] →
  Forall (λ c, String.length c ≤ NAME_MAX) (dirs ++ [name]) →
  makedirs_frames fs (PosixPath.dirname path) ≤ makedirs_room →
  name ≠ "." → name ≠ ".." →
  Forall (no_file_at (nodes fs)) (trail (start fs path) dirs) →
  nodes fs !! (land (start fs path) dirs ++ [name]) ≠ Some Dir →
  land (start fs path) dirs ++ [name] ∉ trail (start fs path) dirs →
  ∃ fs',
    _edit_file path old_text new_text fs = (Returns ("成功创建 " +:+ path), fs') ∧
    stored fs' path = Some new_text ∧
    Forall (λ loc, nodes fs' !! loc = Some Dir) (trail (start fs path) dirs) ∧
    nodes fs' !! (land (start fs path) dirs ++ [name]) = Some (File new_text) ∧
    (∀ k, k ≠ land (start fs path) dirs ++ [name] →
       nodes fs' !! k =
         match nodes fs !! k with
         | Some n => Some n
         | None => if decide (k ∈ trail (start fs path) dirs) then Some Dir else None
         end).
Proof.
  intros Hmode Hnul Hlen%path_fits Hend Hcomps Hnames%names_fit Hroom
         Hd Hdd Hfiles Htarget Hfresh.
  assert (exists_ fs path && PyStr.truthy old_text = false) as Hb.
  { destruct Hmode as [-> | ->]; [done|]. apply andb_false_r. }
  destruct (edit_file_creates fs path old_text new_text dirs name
              Hb Hroom Hnul Hlen Hend Hcomps Hnames Hd Hdd Hfiles Htarget Hfresh)
    as [He Hr].
  eexists. split; [exact He|]. split_and!.
  - apply stored_resolve. eauto.
  - simpl. rewrite Forall_forall. intros loc Hloc.
    rewrite lookup_insert_ne by (intros E; by rewrite E in Hfresh).
    rewrite made_lookup.
    rewrite Forall_forall in Hfiles. specialize (Hfiles loc Hloc).
    destruct (nodes fs !! loc) as [[d|]|] eqn:E; [by destruct (Hfiles d)|done|].
    by rewrite decide_True.
  - simpl. apply lookup_insert_eq.
  - intros k Hk. simpl. rewrite lookup_insert_ne by done. apply made_lookup.
Qed.

Lemma edit_creates_file_witness :
  (exists_ Sample.tree "new/sub/notes.txt" = false ∨ "" = "") ∧
  PyStr.has_nul "new/sub/notes.txt" = false ∧
  String.length "new/sub/notes.txt" < PATH_MAX ∧
  PosixPath.endswith_sep "new/sub/notes.txt" = false ∧
  PosixPath.components "new/sub/notes.txt" = ["new"; "sub"] ++ ["notes.txt"] ∧
  makedirs_frames Sample.tree "new/sub" = 2 ∧
  ∃ fs',
    _edit_file "new/sub/notes.txt" "" "hello" Sample.tree =
      (Returns "成功创建 new/sub/notes.txt", fs') ∧
    stored fs' "new/sub/notes.txt" = Some "hello" ∧
    nodes fs' !! ["home"; "new"; "sub"] = Some Dir.
Proof.
  split; [left; reflexivity|]. split; [reflexivity|].
  split; [vm_compute; lia|]. split; [reflexivity|]. split; [reflexivity|].
  split; [reflexivity|].
  destruct (edit_creates_file Sample.tree "new/sub/notes.txt" "" "hello"
              ["new"; "sub"] "notes.txt")
    as (fs' & He & Hs & Hdirs & _).
  - left; reflexivity.
  - reflexivity.
  - vm_compute; lia.
  - reflexivity.
  - reflexivity.
  - repeat constructor; vm_compute; lia.
  - vm_compute; lia.
  - discriminate.
  - discriminate.
  - repeat constructor; intros d; vm_compute; discriminate.
  - vm_compute; discriminate.
  - simpl. rewrite !not_elem_of_cons.
    split_and!; [discriminate..|apply not_elem_of_nil].
  - exists fs'. split; [exact He|]. split; [exact Hs|].
    by apply Forall_cons in Hdirs as [_ [H _]%Forall_cons].
Defined.

(** C7 as the claim words it fails: a regular file among the directories,
    an existing directory as the target, an empty path, a name holding
    NUL, a name of more than [NAME_MAX] bytes or more missing directories
    than [os.makedirs] can nest calls stop the creation; the answer is an
    error message and nothing is written. *)
Lemma edit_cannot_always_create :
  (exists_ Sample.tree "z/k" = false ∧
   _edit_file "z/k" "" "c" Sample.tree =
     (Returns "编辑文件时出错: [Errno 17] File exists: 'z'", Sample.tree)) ∧
  (_edit_file "d" "" "c" Sample.tree =
     (Returns "编辑文件时出错: [Errno 21] Is a directory: 'd'", Sample.tree)) ∧
  (exists_ Sample.tree "" = false ∧
   _edit_file "" "" "c" Sample.tree =
     (Returns "编辑文件时出错: [Errno 2] No such file or directory: ''", Sample.tree)) ∧
  (let path := String "x" (String PyStr.NUL "") in
   exists_ Sample.tree path = false ∧
   _edit_file path "" "c" Sample.tree =
     (Returns "编辑文件时出错: embedded null byte", Sample.tree)) ∧
  (let path := Sample.letters 256 in
   exists_ Sample.tree path = false ∧
   _edit_file path "" "c" Sample.tree =
     (Returns ("编辑文件时出错: [Errno 36] File name too long: '" +:+ path +:+ "'"),
      Sample.tree)) ∧
  (let path := Sample.deep 992 in
   exists_ Sample.tree path = false ∧
   String.length path = 1989 ∧
   makedirs_frames Sample.tree (PosixPath.dirname path) = 994 ∧
   _edit_file path "" "c" Sample.tree =
     (Returns "编辑文件时出错: maximum recursion depth exceeded", Sample.tree)).
Proof. cbv zeta. split_and!; vm_compute; reflexivity. Qed.




(** * The tree stays well formed *)

Section Invariant.

Implicit Types (ns : gmap (list string) node) (cur comps loc k q : list string).

Lemma wf_key_snoc ns q y :
  wf_key ns (q ++ [y]) ↔ valid_name y ∧ node_at ns q = Some Dir.
Proof. unfold wf_key. by rewrite reverse_snoc, reverse_involutive. Qed.

Lemma wf_key_inv ns k :
  wf_key ns k → ∃ q y, k = q ++ [y] ∧ valid_name y ∧ node_at ns q = Some Dir.
Proof.
  destruct k as [|a k _] using rev_ind; [done|].
  intros H%wf_key_snoc. eauto.
Qed.

Lemma dir_parent ns cur :
  wf_nodes ns → node_at ns cur = Some Dir → node_at ns (removelast cur) = Some Dir.
Proof.
  intros Hwf. destruct cur as [|x p _] using rev_ind; [done|].
  rewrite removelast_last, node_at_snoc. intros Hl.
  by apply Hwf, wf_key_snoc in Hl as [_ ?].
Qed.

Lemma node_at_insert_keep ns loc n q :
  node_at ns q = Some Dir → ns !! loc ≠ Some Dir →
  node_at (<[loc := n]> ns) q = Some Dir.
Proof.
  destruct q as [|a q]; [done|]. simpl. intros Hq Hloc.
  rewrite lookup_insert_ne; [done|]. by intros ->.
Qed.

Lemma wf_nodes_insert ns p x n :
  wf_nodes ns → valid_name x → node_at ns p = Some Dir →
  ns !! (p ++ [x]) ≠ Some Dir →
  wf_nodes (<[p ++ [x] := n]> ns).
Proof.
  intros Hwf Hx Hp Hloc k v. rewrite lookup_insert.
  case_decide as Hk.
  - intros _. subst k. apply wf_key_snoc. split; [done|].
    by apply node_at_insert_keep.
  - intros Hl. apply Hwf, wf_key_inv in Hl as (q & y & -> & Hy & Hq).
    apply wf_key_snoc. split; [done|]. by apply node_at_insert_keep.
Qed.

Lemma mkdirs_wf (comps : list (string * string)) ns cur fresh :
  wf_nodes ns → node_at ns cur = Some Dir → Forall comp_ok comps.*1 →
  wf_nodes (mkdirs ns cur fresh comps).2 ∧
  ∀ q, node_at ns q = Some Dir → node_at (mkdirs ns cur fresh comps).2 q = Some Dir.
Proof.
  revert ns cur fresh.
  induction comps as [|[c pre] rest IH]; intros ns cur fresh Hwf Hcur Hok;
    simpl; [done|].
  rewrite fmap_cons in Hok. apply Forall_cons in Hok as [[Hne Hsep] Hok].
  simpl in Hne, Hsep.
  case_decide as Hd.
  { destruct (negb fresh && path_too_long pre); [done|]. by apply IH. }
  destruct (PyStr.has_nul c) eqn:Hnul; [done|].
  destruct (path_too_long pre); [done|].
  case_decide as Hdd.
  { apply IH; [done| |done]. by apply dir_parent. }
  destruct (name_too_long c) eqn:Hlong; [done|].
  rewrite node_at_snoc.
  destruct (ns !! (cur ++ [c])) as [[d|]|] eqn:E.
  - by destruct rest as [|[? ?] ?].
  - apply IH; [done| |done]. by rewrite node_at_snoc.
  - assert (ns !! (cur ++ [c]) ≠ Some Dir) as Hn by congruence.
    destruct (IH (<[cur ++ [c] := Dir]> ns) (cur ++ [c]) true) as [Hwf' Hkeep];
      [by apply wf_nodes_insert| |done|].
    { rewrite node_at_snoc. apply lookup_insert_eq. }
    split; [done|]. intros q Hq. apply Hkeep. by apply node_at_insert_keep.
Qed.

Lemma walk_end ns cur comps slash loc :
  wf_nodes ns → node_at ns cur = Some Dir → Forall comp_ok comps →
  Forall (λ c, PyStr.has_nul c = false) comps →
  (∃ s, walk ns cur comps slash = Missing loc s) ∨
    (∃ d, walk ns cur comps slash = Found loc (File d)) →
  ∃ p x, loc = p ++ [x] ∧ valid_name x ∧ node_at ns p = Some Dir.
Proof.
  intros Hwf. revert cur.
  induction comps as [|c rest IH]; intros cur Hcur Hok Hnul; simpl.
  { intros [[? ?]|[? ?]]; done. }
  apply Forall_cons in Hok as [[Hne Hsep] Hok].
  apply Forall_cons in Hnul as [Hn Hnul].
  repeat case_decide.
  - by apply IH.
  - apply IH; [|done..]. by apply dir_parent.
  - destruct (name_too_long c) eqn:Hlong; [intros [[? ?]|[? ?]]; done|].
    rewrite node_at_snoc.
    destruct (ns !! (cur ++ [c])) as [[d|]|] eqn:E.
    + destruct rest; [destruct slash|]; intros [[? ?]|[? ?]]; simplify_eq.
      by exists cur, c.
    + apply IH; [|done..]. by rewrite node_at_snoc.
    + destruct rest; intros [[? ?]|[? ?]]; simplify_eq. by exists cur, c.
Qed.

Lemma start_is_dir fs path : wf fs → node_at (nodes fs) (start fs path) = Some Dir.
Proof. intros [_ Hcwd]. unfold start. by destruct (PosixPath.isabs path). Qed.

Lemma write_text_wf fs path t : wf fs → wf (write_text fs path t).2.
Proof.
  intros Hwf. pose proof Hwf as [Hns Hcwd].
  assert (∀ loc, (∃ s, resolve fs path = Missing loc s) ∨
                 (∃ d, resolve fs path = Found loc (File d)) →
                 wf (set_nodes fs (<[loc := File t]> (nodes fs)))) as Hins.
  { intros loc Hr.
    assert (PyStr.has_nul path = false ∧
            ((∃ s, walk (nodes fs) (start fs path) (PosixPath.components path)
                     (PosixPath.endswith_sep path) = Missing loc s) ∨
             (∃ d, walk (nodes fs) (start fs path) (PosixPath.components path)
                     (PosixPath.endswith_sep path) = Found loc (File d))))
      as [Hnul Hw].
    { destruct Hr as [[sl Hr]|[d Hr]].
      - apply resolve_missing in Hr as (_ & ? & _ & ?). eauto.
      - apply resolve_found in Hr as (_ & ? & _ & ?). eauto. }
    assert (nodes fs !! loc ≠ Some Dir) as Hn.
    { destruct Hw as [[sl Hw]|[d Hw]].
      - apply walk_missing in Hw as [-> _]. done.
      - apply walk_found_file in Hw as ->. done. }
    apply walk_end in Hw as (p & x & -> & Hx & Hp);
      [|done|by apply start_is_dir|apply components_ok|by apply components_no_nul].
    split; simpl.
    - by apply wf_nodes_insert.
    - by apply node_at_insert_keep. }
  unfold write_text.
  destruct (resolve fs path) as [loc [d|]|loc [|]| | | |] eqn:Hr; simpl; try done.
  - apply Hins. eauto.
  - apply Hins. eauto.
Qed.

Lemma makedirs_wf fs name : wf fs → wf (makedirs fs name).2.
Proof.
  intros Hwf. pose proof Hwf as [Hns Hcwd]. unfold makedirs.
  destruct (PyStr.truthy name); [|done].
  destruct (makedirs_room <? makedirs_frames fs name); [done|].
  pose proof (components_ok name) as Hok. rewrite <- prefixed_fst in Hok.
  destruct (PosixPath.prefixed name) as [|cp rest] eqn:E.
  { destruct (path_too_long name); by destruct fs. }
  destruct (mkdirs_wf (cp :: rest) (nodes fs) (start fs name) false
              Hns (start_is_dir fs name Hwf) Hok) as [Hwf' Hkeep].
  destruct (mkdirs (nodes fs) (start fs name) false (cp :: rest)) as [r ns'].
  split; simpl in *; [done|]. by apply Hkeep.
Qed.

Lemma edit_file_wf fs path old_text new_text :
  wf fs → wf (_edit_file path old_text new_text fs).2.
Proof.
  intros Hwf. unfold _edit_file. run_M.
  destruct (exists_ fs path && PyStr.truthy old_text).
  - destruct (read_text fs path) as [c|e]; simpl; [|done].
    destruct (PyStr.contains old_text c); simpl; [|done].
    pose proof (write_text_wf fs path (PyStr.replace old_text new_text c) Hwf) as Hw.
    destruct (write_text fs path _) as [[[]|e] fs1]; done.
  - destruct (PyStr.truthy (PosixPath.dirname path)).
    + pose proof (makedirs_wf fs (PosixPath.dirname path) Hwf) as Hm.
      destruct (makedirs fs _) as [[[]|e] fs1]; [|done].
      pose proof (write_text_wf fs1 path new_text Hm) as Hw.
      destruct (write_text fs1 path new_text) as [[[]|e] fs2]; done.
    + simpl. pose proof (write_text_wf fs path new_text Hwf) as Hw.
      destruct (write_text fs path new_text) as [[[]|e] fs2]; done.
Qed.

Lemma execute_tool_wf name (input : gmap string string) fs :
  wf fs → wf (_execute_tool name input fs).2.
Proof.
  intros Hwf. unfold _execute_tool, try_except.
  repeat case_decide.
  - run_M. destruct (input !! "path") as [p|]; simpl; [|done].
    destruct (read_file_returns p fs) as [s ->]. done.
  - destruct (list_files_returns (get input "path" ".") fs) as [s ->]. done.
  - run_M. destruct (input !! "path") as [p|]; simpl; [|done].
    destruct (input !! "new_text") as [t|]; simpl; [|done].
    pose proof (edit_file_wf fs p (get input "old_text" "") t Hwf) as He.
    destruct (_edit_file p _ t fs) as [[s|e] fs']; done.
  - done.
Qed.

Lemma tool_results_wf uses fs : wf fs → wf (tool_results uses fs).2.
Proof.
  revert fs. induction uses as [|[[id name] input] rest IH]; intros fs Hwf; simpl; [done|].
  pose proof (execute_tool_wf name input fs Hwf) as He.
  rewrite tool_outcome_spec in He. simpl in He.
  destruct (tool_outcome name input fs) as [s fs1]. specialize (IH fs1 He).
  by destruct (tool_results rest fs1).
Qed.

(** Whatever the model answers, a round of [chat] leaves a well-formed
    tree well formed. *)
Lemma chat_round_wf (client : list message → outcome (list response_block)) a :
  wf (files a) → wf (files (round_agent (chat_round client a))).
Proof.
  intros Hwf. destruct (client (messages a)) as [response|e] eqn:Hc.
  - destruct (decide (tool_uses response = [])) as [Hn|Hn].
    + by rewrite (chat_round_reply _ _ _ Hc Hn).
    + rewrite (chat_round_again _ _ _ Hc Hn). simpl. by apply tool_results_wf.
  - by rewrite (chat_round_raises _ _ _ Hc).
Qed.

Lemma chat_loop_wf (client : list message → outcome (list response_block))
    fuel a reply a' :
  wf (files a) → chat_loop client fuel a = Some (reply, a') → wf (files a').
Proof.
  revert a. induction fuel as [|fuel IH]; intros a Hwf; simpl; [done|].
  pose proof (chat_round_wf client a Hwf) as Hr.
  destruct (chat_round client a) as [r a1|a1]; simpl in Hr.
  - intros; by simplify_eq.
  - by apply IH.
Qed.

(** A whole turn of [chat] leaves a well-formed tree well formed. *)
Lemma chat_wf (client : list message → outcome (list response_block))
    fuel user_input a reply a' :
  wf (files a) → chat client fuel user_input a = Some (reply, a') → wf (files a').
Proof. intros Hwf. unfold chat. by apply chat_loop_wf. Qed.

End Invariant.

(** * Further properties of the tools *)

Section MoreTools.

Implicit Types (fs : filesystem) (path : string).


End MoreTools.



Section Frame.

Implicit Types (ns : gmap (list string) node) (cur comps loc k : list string).

Lemma mkdirs_keeps (comps : list (string * string)) ns cur fresh k n :
  ns !! k = Some n → (mkdirs ns cur fresh comps).2 !! k = Some n.
Proof.
  revert ns cur fresh.
  induction comps as [|[c pre] rest IH]; intros ns cur fresh Hk; simpl; [done|].
  case_decide.
  { destruct (negb fresh && path_too_long pre); [done|]. by apply IH. }
  destruct (PyStr.has_nul c); [done|].
  destruct (path_too_long pre); [done|].
  case_decide; [by apply IH|].
  destruct (name_too_long c); [done|].
  rewrite node_at_snoc.
  destruct (ns !! (cur ++ [c])) as [[d|]|] eqn:E.
  - by destruct rest as [|[? ?] ?].
  - by apply IH.
  - apply IH. rewrite lookup_insert_ne; [done|]. congruence.
Qed.

Lemma makedirs_keeps fs name k n :
  nodes fs !! k = Some n →
  nodes (makedirs fs name).2 !! k = Some n ∧ cwd (makedirs fs name).2 = cwd fs.
Proof.
  intros Hk. unfold makedirs. destruct (PyStr.truthy name); [|done].
  destruct (makedirs_room <? makedirs_frames fs name); [done|].
  destruct (PosixPath.prefixed name) as [|cp rest]; [done|].
  pose proof (mkdirs_keeps (cp :: rest) (nodes fs) (start fs name) false k n Hk) as H.
  by destruct (mkdirs (nodes fs) (start fs name) false (cp :: rest)).
Qed.

Lemma makedirs_cwd fs name : cwd (makedirs fs name).2 = cwd fs.
Proof.
  unfold makedirs. destruct (PyStr.truthy name); [|done].
  destruct (makedirs_room <? makedirs_frames fs name); [done|].
  destruct (PosixPath.prefixed name) as [|cp rest]; [done|].
  by destruct (mkdirs (nodes fs) (start fs name) false (cp :: rest)).
Qed.

(** What a write changes: nothing, or the one file it names. *)
Lemma write_text_effect fs path t :
  (write_text fs path t).2 = fs ∨
  ∃ loc, (write_text fs path t).2 = set_nodes fs (<[loc := File t]> (nodes fs)) ∧
         (nodes fs !! loc = None ∨ ∃ d, nodes fs !! loc = Some (File d)).
Proof.
  unfold write_text.
  destruct (resolve fs path) as [loc [d|]|loc [|]| | | |] eqn:Hr; simpl; auto.
  - right. exists loc. split; [done|]. right. exists d.
    apply resolve_found in Hr as (_ & _ & _ & Hr).
    by apply walk_found_file in Hr.
  - right. exists loc. split; [done|]. left.
    apply resolve_missing in Hr as (_ & _ & _ & Hr).
    by apply walk_missing in Hr as [? _].
Qed.

Lemma write_text_keeps fs path t k n :
  nodes fs !! k = Some n →
  (nodes (write_text fs path t).2 !! k = Some n ∨
   ∃ d, n = File d ∧ nodes (write_text fs path t).2 !! k = Some (File t)) ∧
  cwd (write_text fs path t).2 = cwd fs.
Proof.
  intros Hk. destruct (write_text_effect fs path t) as [->|(loc & -> & Hloc)];
    [auto|]. simpl. split; [|done].
  destruct (decide (k = loc)) as [->|Hne].
  - rewrite lookup_insert_eq. destruct Hloc as [?|[d ?]]; [congruence|].
    right. exists d. split; [congruence|done].
  - left. by rewrite lookup_insert_ne.
Qed.

Lemma edit_file_by_cases fs path old_text new_text :
  let fs' := (_edit_file path old_text new_text fs).2 in
  fs' = fs ∨
  (∃ t, fs' = (write_text fs path t).2) ∨
  fs' = (makedirs fs (PosixPath.dirname path)).2 ∨
  fs' = (write_text (makedirs fs (PosixPath.dirname path)).2 path new_text).2.
Proof.
  unfold _edit_file. run_M.
  destruct (exists_ fs path && PyStr.truthy old_text).
  - destruct (read_text fs path) as [c|e]; simpl; [|auto].
    destruct (PyStr.contains old_text c); simpl; [|auto].
    right. left. exists (PyStr.replace old_text new_text c).
    by destruct (write_text fs path _) as [[[]|e] fs1].
  - destruct (PyStr.truthy (PosixPath.dirname path)).
    + destruct (makedirs fs _) as [[[]|e] fs1] eqn:Hm; simpl; [|auto].
      right. right. right.
      by destruct (write_text fs1 path new_text) as [[[]|e] fs2].
    + simpl. right. left. exists new_text.
      by destruct (write_text fs path new_text) as [[[]|e] fs2].
Qed.

End Frame.

(** X2.  Whatever its arguments and whatever it answers, [edit_file]
    removes nothing: every directory is still there, every file is still a
    file -- with its content, or with new content -- and the working
    directory is the same. *)
Theorem edit_file_removes_nothing
    (fs : filesystem) (path old_text new_text : string)
    (k : list string) (n : node) :
  nodes fs !! k = Some n →
  let fs' := (_edit_file path old_text new_text fs).2 in
  (nodes fs' !! k = Some n ∨
   ∃ d t, n = File d ∧ nodes fs' !! k = Some (File t)) ∧
  cwd fs' = cwd fs.
Proof.
  intros Hk fs'.
  destruct (edit_file_by_cases fs path old_text new_text)
    as [E|[[t E]|[E|E]]]; fold fs' in E; rewrite E.
  - auto.
  - destruct (write_text_keeps fs path t k n Hk) as [[?|(d & -> & ?)] ?]; eauto 6.
  - destruct (makedirs_keeps fs (PosixPath.dirname path) k n Hk); auto.
  - destruct (makedirs_keeps fs (PosixPath.dirname path) k n Hk) as [Hm Hc].
    destruct (write_text_keeps _ path new_text k n Hm) as [[?|(d & -> & ?)] Hc'];
      rewrite Hc' , Hc; eauto 6.
Qed.

Lemma edit_file_removes_nothing_witness :
  nodes Sample.tree !! ["home"; "d"] = Some Dir ∧
  nodes (_edit_file "d" "" "text" Sample.tree).2 !! ["home"; "d"] = Some Dir.
Proof.
  split; [reflexivity|].
  destruct (edit_file_removes_nothing Sample.tree "d" "" "text" ["home"; "d"] Dir)
    as [[H|(d & t & Hd & _)] _]; [reflexivity|exact H|discriminate Hd].
Defined.

Section Overwrite.

Implicit Types (ns : gmap (list string) node) (cur comps loc k : list string).

(** A walk that ends at a regular file went through directories only and
    ended on a name. *)
Lemma walk_file_inv ns cur comps slash loc d :
  walk ns cur comps slash = Found loc (File d) →
  ∃ dirs name, comps = dirs ++ [name] ∧ name ≠ "." ∧ name ≠ ".." ∧
    loc = land cur dirs ++ [name] ∧
    Forall (λ l, ns !! l = Some Dir) (trail cur dirs) ∧
    Forall (λ c, name_too_long c = false) (dirs ++ [name]).
Proof.
  revert cur. induction comps as [|c rest IH]; intros cur; simpl; [done|].
  destruct (decide (c = ".")) as [->|Hd].
  { intros (dirs & name & -> & ? & ? & -> & ? & ?)%IH.
    exists ("." :: dirs), name. split_and!; try done. by constructor. }
  destruct (decide (c = "..")) as [->|Hdd].
  { intros (dirs & name & -> & ? & ? & -> & ? & ?)%IH.
    exists (".." :: dirs), name. split_and!; try done. by constructor. }
  destruct (name_too_long c) eqn:Hlong; [done|].
  rewrite node_at_snoc.
  destruct (ns !! (cur ++ [c])) as [[d'|]|] eqn:E.
  - destruct rest; [destruct slash|]; intros; simplify_eq.
    exists [], c. simpl. split_and!; try done; by repeat constructor.
  - intros (dirs & name & -> & ? & ? & -> & ? & ?)%IH.
    exists (c :: dirs), name. simpl.
    destruct (decide (c = ".")); [done|]. destruct (decide (c = "..")); [done|].
    split_and!; try done; by constructor.
  - destruct rest; done.
Qed.

Lemma made_present ns locs :
  Forall (λ l, is_Some (ns !! l)) locs → made ns locs = ns.
Proof.
  intros Hall. apply map_eq. intros k. rewrite made_lookup.
  destruct (ns !! k) eqn:E; [done|]. case_decide as Hin; [|done].
  rewrite Forall_forall in Hall. destruct (Hall k Hin) as [? ?]. congruence.
Qed.

(** With an empty [old_text], an existing file is overwritten whole. *)
Lemma edit_file_overwrites fs path data new_text :
  stored fs path = Some data →
  ∃ loc, resolve fs path = Found loc (File data) ∧
    nodes fs !! loc = Some (File data) ∧
    _edit_file path "" new_text fs =
      (Returns ("成功创建 " +:+ path),
       set_nodes fs (<[loc := File new_text]> (nodes fs))).
Proof.
  intros [loc Hr]%stored_resolve. exists loc. split; [done|].
  apply resolve_found in Hr as (Hp & Hnul & Hlen & Hr).
  destruct (PosixPath.endswith_sep path) eqn:Hend;
    [by apply walk_slash_no_file in Hr|].
  pose proof (walk_found_file _ _ _ _ _ _ Hr) as Hloc.
  destruct (walk_file_inv _ _ _ _ _ _ Hr)
    as (dirs & name & Hcomps & Hd & Hdd & -> & Hdirs & Hnames).
  split; [done|].
  destruct (edit_file_creates fs path "" new_text dirs name) as [He _]; try done.
  - apply andb_false_r.
  - rewrite Hcomps in Hr.
    rewrite (makedirs_frames_none fs path dirs name _ _ _ Hnul Hlen Hend Hcomps Hr).
    lia.
  - eapply Forall_impl; [exact Hdirs|]. intros l Hl d. congruence.
  - congruence.
  - intros Hin. rewrite Forall_forall in Hdirs. specialize (Hdirs _ Hin). congruence.
  - rewrite He. rewrite made_present; [done|].
    eapply Forall_impl; [exact Hdirs|]. intros l Hl. simpl in Hl. by rewrite Hl.
Qed.

Lemma replaced_all_same old s s' : replaced_all old old s s' → s' = s.
Proof. induction 1; congruence. Qed.

Lemma write_text_outcome fs path t :
  match write_text fs path t with
  | (Returns _, fs') => ∃ loc, resolve fs' path = Found loc (File t)
  | (Raises _, fs') => fs' = fs
  end.
Proof.
  destruct (write_text fs path t) as [[[]|e] fs'] eqn:Hw.
  - unfold write_text in Hw.
    destruct (resolve fs path) as [loc [d|]|loc [|]| | | |] eqn:Hr; simplify_eq.
    + destruct (write_text_stored fs path t) as (loc' & _ & Hr' & Hc);
        [left; eauto|].
      assert (loc' = loc) as -> by (destruct Hc as [?|[? ?]]; congruence). eauto.
    + destruct (write_text_stored fs path t) as (loc' & _ & Hr' & Hc);
        [right; eauto|].
      assert (loc' = loc) as -> by (destruct Hc as [?|[? ?]]; congruence). eauto.
  - unfold write_text in Hw.
    destruct (resolve fs path) as [loc [d|]|loc [|]| | | |]; by simplify_eq.
Qed.

(** The answers of [_edit_file], by the branch that gives them. *)
Lemma edit_file_answers fs path old_text new_text :
  let r := _edit_file path old_text new_text fs in
  (∃ loc data,
     resolve fs path = Found loc (File data) ∧ old_text ≠ "" ∧
     occurs old_text (PyStr.universal_newlines data) ∧
     r = (Returns ("成功编辑 " +:+ path),
          set_nodes fs (<[loc := File (PyStr.replace old_text new_text
                                         (PyStr.universal_newlines data))]>
                          (nodes fs)))) ∨
  (exists_ fs path = true ∧ old_text ≠ "" ∧
   r = (Returns ("文件中未找到文本: " +:+ old_text), fs)) ∨
  (exists_ fs path && PyStr.truthy old_text = false ∧
   ∃ loc,
     r.1 = Returns ("成功创建 " +:+ path) ∧
     resolve r.2 path = Found loc (File new_text)) ∨
  (∃ e, r.1 = Returns ("编辑文件时出错: " +:+ PyStr.str_exn e) ∧
        (exists_ fs path && PyStr.truthy old_text = true → r.2 = fs)).
Proof.
  unfold _edit_file. run_M.
  destruct (exists_ fs path && PyStr.truthy old_text) eqn:Hb.
  - apply andb_true_iff in Hb as [Hex Hold].
    assert (old_text ≠ "") as Hne by (by destruct old_text).
    unfold read_text, exists_ in *.
    destruct (resolve fs path) as [loc [d|]|loc sl| | | |] eqn:Hr; try done; simpl.
    + destruct (PyStr.contains old_text (PyStr.universal_newlines d)) eqn:Hc; simpl.
      * left. exists loc, d. split; [done|]. split; [done|].
        split; [by apply contains_iff|].
        unfold write_text. by rewrite Hr.
      * right. left. done.
    + right. right. right. exists (IsADirectoryError path). done.
  - right. right.
    destruct (PyStr.truthy (PosixPath.dirname path)).
    + destruct (makedirs fs (PosixPath.dirname path)) as [[[]|e] fs1]; simpl.
      * pose proof (write_text_outcome fs1 path new_text) as Hw.
        destruct (write_text fs1 path new_text) as [[[]|e] fs2]; simpl.
        -- left. split; [done|]. destruct Hw as [loc Hw]. eauto.
        -- right. exists e. done.
      * right. exists e. done.
    + simpl. pose proof (write_text_outcome fs path new_text) as Hw.
      destruct (write_text fs path new_text) as [[[]|e] fs2]; simpl.
      * left. split; [done|]. destruct Hw as [loc Hw]. eauto.
      * right. exists e. done.
Qed.

End Overwrite.

Section Replacing.

(** The replace branch of [_edit_file], when the text is there. *)
Lemma edit_file_replaces fs path loc data old_text new_text :
  resolve fs path = Found loc (File data) →
  old_text ≠ "" →
  occurs old_text (PyStr.universal_newlines data) →
  _edit_file path old_text new_text fs =
    (Returns ("成功编辑 " +:+ path),
     set_nodes fs
       (<[loc := File (PyStr.replace old_text new_text
                         (PyStr.universal_newlines data))]> (nodes fs))).
Proof.
  intros Hr Hold Hocc. apply contains_iff in Hocc.
  assert (exists_ fs path = true) as He by (unfold exists_; by rewrite Hr).
  assert (read_text fs path = Returns (PyStr.universal_newlines data)) as Hrd
    by (unfold read_text; by rewrite Hr).
  unfold _edit_file. run_M. rewrite He.
  destruct old_text; [done|]. simpl. rewrite Hrd, Hocc. simpl.
  unfold write_text. by rewrite Hr.
Qed.

Lemma resolve_after_write fs path loc data t :
  resolve fs path = Found loc (File data) →
  resolve (set_nodes fs (<[loc := File t]> (nodes fs))) path = Found loc (File t).
Proof.
  intros Hr. destruct (write_text_stored fs path t) as (loc' & _ & Hr' & Hc);
    [left; eauto|].
  assert (loc' = loc) as -> by (destruct Hc as [?|[? ?]]; congruence). done.
Qed.

End Replacing.

(** X3.  The two success answers of [edit_file] can be trusted.  When it
    answers that the file was created, the path names a regular file whose
    whole content is [new_text].  When it answers that the file was edited,
    the file existed, [old_text] was not empty and occurred in the text
    read, and the file now holds that text with the occurrences replaced. *)
Theorem edit_file_success_is_true
    (fs : filesystem) (path old_text new_text : string) :
  ((_edit_file path old_text new_text fs).1 = Returns ("成功创建 " +:+ path) →
     stored (_edit_file path old_text new_text fs).2 path = Some new_text) ∧
  ((_edit_file path old_text new_text fs).1 = Returns ("成功编辑 " +:+ path) →
     ∃ data,
       stored fs path = Some data ∧ old_text ≠ "" ∧
       occurs old_text (PyStr.universal_newlines data) ∧
       stored (_edit_file path old_text new_text fs).2 path =
         Some (PyStr.replace old_text new_text (PyStr.universal_newlines data))).
Proof.
  destruct (edit_file_answers fs path old_text new_text)
    as [(loc & data & Hr & Hold & Hocc & E)
       |[(Hex & Hold & E)|[(Hb & loc & E & Hr)|(e & E & _)]]].
  - rewrite E. simpl. split.
    + intros H. exfalso. vm_compute in H. discriminate H.
    + intros _. exists data. split_and!; try done.
      * apply stored_resolve. eauto.
      * apply stored_resolve. exists loc. by apply (resolve_after_write fs path loc data).
  - rewrite E. simpl. split; intros H; exfalso; vm_compute in H; discriminate H.
  - rewrite E. split.
    + intros _. apply stored_resolve. eauto.
    + intros H. exfalso. vm_compute in H. discriminate H.
  - rewrite E. split; intros H; exfalso; vm_compute in H; discriminate H.
Qed.

Lemma edit_file_success_is_true_witness :
  (_edit_file "notes.txt" "" "hello" Sample.tree).1 = Returns "成功创建 notes.txt" ∧
  stored (_edit_file "notes.txt" "" "hello" Sample.tree).2 "notes.txt" = Some "hello".
Proof.
  destruct (edit_file_success_is_true Sample.tree "notes.txt" "" "hello") as [H _].
  split; [reflexivity|]. apply H. reflexivity.
Defined.

(** X4.  On a path that exists, with a non-empty [old_text], [edit_file] is
    all or nothing: either the file system is left exactly as it was, or the
    answer reports the edit and the only change is the content of the one
    file, now the text read with every occurrence replaced.  No directory
    is made on this branch. *)
Theorem edit_replace_all_or_nothing
    (fs : filesystem) (path old_text new_text : string) :
  exists_ fs path = true →
  old_text ≠ "" →
  (_edit_file path old_text new_text fs).2 = fs ∨
  ∃ loc data,
    nodes fs !! loc = Some (File data) ∧
    _edit_file path old_text new_text fs =
      (Returns ("成功编辑 " +:+ path),
       set_nodes fs
         (<[loc := File (PyStr.replace old_text new_text
                           (PyStr.universal_newlines data))]> (nodes fs))).
Proof.
  intros Hex Hold.
  assert (exists_ fs path && PyStr.truthy old_text = true) as Hb.
  { rewrite Hex. by destruct old_text. }
  destruct (edit_file_answers fs path old_text new_text)
    as [(loc & data & Hr & _ & Hocc & E)
       |[(_ & _ & E)|[(Hb' & _)|(e & _ & E)]]].
  - right. exists loc, data. split; [|done].
    apply resolve_found in Hr as (_ & _ & _ & Hr).
    by apply walk_found_file in Hr.
  - left. by rewrite E.
  - congruence.
  - left. by apply E.
Qed.

Lemma edit_replace_all_or_nothing_witness :
  exists_ Sample.tree "d" = true ∧ "x" ≠ "" ∧
  ((_edit_file "d" "x" "y" Sample.tree).2 = Sample.tree ∨
   ∃ loc data,
     nodes Sample.tree !! loc = Some (File data) ∧
     _edit_file "d" "x" "y" Sample.tree =
       (Returns "成功编辑 d",
        set_nodes Sample.tree
          (<[loc := File (PyStr.replace "x" "y" (PyStr.universal_newlines data))]>
             (nodes Sample.tree)))).
Proof.
  split; [reflexivity|]. split; [discriminate|].
  apply (edit_replace_all_or_nothing Sample.tree "d" "x" "y");
    [reflexivity|discriminate].
Defined.

(** X5.  [edit_file] with an empty [old_text] on an existing regular file
    replaces its whole content by [new_text], reports a creation, and
    changes nothing else: no other node, no directory. *)
Theorem edit_empty_old_text_overwrites
    (fs : filesystem) (path data new_text : string) :
  stored fs path = Some data →
  ∃ loc,
    nodes fs !! loc = Some (File data) ∧
    _edit_file path "" new_text fs =
      (Returns ("成功创建 " +:+ path),
       set_nodes fs (<[loc := File new_text]> (nodes fs))) ∧
    stored (set_nodes fs (<[loc := File new_text]> (nodes fs))) path = Some new_text.
Proof.
  intros Hs. destruct (edit_file_overwrites fs path data new_text Hs)
    as (loc & Hr & Hloc & He).
  exists loc. split_and!; [done..|].
  apply stored_resolve. exists loc. by apply (resolve_after_write fs path loc data).
Qed.

Lemma edit_empty_old_text_overwrites_witness :
  stored Sample.tree "z" = Some "zz" ∧
  ∃ loc,
    _edit_file "z" "" "new" Sample.tree =
      (Returns "成功创建 z",
       set_nodes Sample.tree (<[loc := File "new"]> (nodes Sample.tree))).
Proof.
  split; [reflexivity|].
  destruct (edit_empty_old_text_overwrites Sample.tree "z" "zz" "new")
    as (loc & _ & He & _); [reflexivity|].
  exists loc. exact He.
Defined.

(** X6.  Creation is idempotent: once [edit_file] with an empty
    [old_text] has reported a creation, the same call again gives the same
    answer and leaves the file system exactly as the first call left it. *)
Theorem edit_create_twice (fs : filesystem) (path new_text : string) :
  (_edit_file path "" new_text fs).1 = Returns ("成功创建 " +:+ path) →
  _edit_file path "" new_text (_edit_file path "" new_text fs).2 =
    (Returns ("成功创建 " +:+ path), (_edit_file path "" new_text fs).2).
Proof.
  intros H1.
  assert (stored (_edit_file path "" new_text fs).2 path = Some new_text) as Hs.
  { destruct (edit_file_answers fs path "" new_text)
      as [(? & ? & ? & ? & _)|[(_ & ? & _)|[(_ & l & _ & Hr)|(e & E & _)]]];
      try done.
    - apply stored_resolve. eauto.
    - rewrite E in H1. vm_compute in H1. discriminate H1. }
  destruct (edit_file_overwrites _ path new_text new_text Hs) as (loc & _ & Hloc & ->).
  by rewrite insert_id, set_nodes_same.
Qed.

Lemma edit_create_twice_witness :
  (_edit_file "new/notes.txt" "" "hello" Sample.tree).1 =
    Returns "成功创建 new/notes.txt" ∧
  _edit_file "new/notes.txt" "" "hello"
      (_edit_file "new/notes.txt" "" "hello" Sample.tree).2 =
    (Returns "成功创建 new/notes.txt",
     (_edit_file "new/notes.txt" "" "hello" Sample.tree).2).
Proof.
  split; [reflexivity|].
  apply (edit_create_twice Sample.tree "new/notes.txt" "hello"). reflexivity.
Defined.

(** X7.  Replacing a text by itself changes no character of the text: the
    file is rewritten with the text as it was read, that is, with its line
    endings turned into LF, and a file without CR is left exactly as it
    was. *)
Theorem edit_same_text_keeps_content
    (fs : filesystem) (path data t : string) :
  stored fs path = Some data →
  t ≠ "" →
  occurs t (PyStr.universal_newlines data) →
  ∃ loc,
    nodes fs !! loc = Some (File data) ∧
    _edit_file path t t fs =
      (Returns ("成功编辑 " +:+ path),
       set_nodes fs (<[loc := File (PyStr.universal_newlines data)]> (nodes fs))) ∧
    (PyStr.contains (String PyStr.CR "") data = false →
       (_edit_file path t t fs).2 = fs).
Proof.
  intros [loc Hr]%stored_resolve Ht Hocc. exists loc.
  assert (nodes fs !! loc = Some (File data)) as Hloc.
  { pose proof Hr as (_ & _ & _ & Hw)%resolve_found.
    by apply walk_found_file in Hw. }
  rewrite (edit_file_replaces fs path loc data t t Hr Ht Hocc).
  rewrite (replaced_all_same t _ _ (replace_replaced_all t t _ Ht)).
  split_and!; [done..|].
  intros Hcr. simpl. rewrite (universal_newlines_id data Hcr).
  by rewrite insert_id, set_nodes_same.
Qed.

Lemma edit_same_text_keeps_content_witness :
  stored Sample.tree "z" = Some "zz" ∧ "z" ≠ "" ∧
  occurs "z" (PyStr.universal_newlines "zz") ∧
  PyStr.contains (String PyStr.CR "") "zz" = false ∧
  (_edit_file "z" "z" "z" Sample.tree).2 = Sample.tree.
Proof.
  assert (occurs "z" (PyStr.universal_newlines "zz")) as Ho.
  { exists 0, "", "z". split; reflexivity. }
  split; [reflexivity|]. split; [discriminate|]. split; [exact Ho|].
  split; [reflexivity|].
  destruct (edit_same_text_keeps_content Sample.tree "z" "zz" "z")
    as (loc & _ & _ & H); [reflexivity|discriminate|exact Ho|].
  apply H. reflexivity.
Defined.

Section Defaults.


Lemma execute_tool_is_dispatch name (input : gmap string string) :
  _execute_tool name input =
    try_except (Registry.dispatch name input)
      (λ e, ret ("执行 " +:+ name +:+ " 时出错: " +:+ PyStr.str_exn e)).
Proof. done. Qed.

End Defaults.





(** * Further properties of the conversation loop *)

Import Keeps.

Section Conversation.

Variable client : list message → outcome (list response_block).

Lemma chat_loop_grows fuel a reply a' :
  chat_loop client fuel a = Some (reply, a') →
  messages a `prefix_of` messages a'.
Proof.
  revert a. induction fuel as [|fuel IH]; intros a; simpl; [done|].
  pose proof (chat_round_grows client a) as Hg.
  destruct (chat_round client a) as [r a1|a1]; simpl in Hg.
  - intros; by simplify_eq.
  - intros H. etrans; [exact Hg|]. by apply IH.
Qed.

(** What one round adds to the trace. *)
Lemma chat_round_trace a :
  ∃ tools, trace (round_agent (chat_round client a)) =
             trace a ++ ModelCall (messages a) :: tools ∧
           Forall (λ ev, is_model_call ev = false) tools.
Proof.
  destruct (client (messages a)) as [response|e] eqn:Hc.
  - destruct (decide (tool_uses response = [])) as [Hn|Hn].
    + rewrite (chat_round_reply _ _ _ Hc Hn). simpl. by exists [].
    + rewrite (chat_round_again _ _ _ Hc Hn). simpl. eexists. split; [done|].
      apply Forall_fmap, Forall_forall. by intros [[? ?] ?].
  - rewrite (chat_round_raises _ _ _ Hc). simpl. by exists [].
Qed.

Lemma chat_loop_calls fuel a reply a' :
  chat_loop client fuel a = Some (reply, a') →
  ∃ new, trace a' = trace a ++ new ∧ Forall (sees_prefix_of (messages a')) new.
Proof.
  revert a. induction fuel as [|fuel IH]; intros a; simpl; [done|].
  destruct (chat_round_trace a) as (tools & Ht & Htools).
  pose proof (chat_round_grows client a) as Hg.
  destruct (chat_round client a) as [r a1|a1]; simpl in Ht, Hg.
  - intros; simplify_eq. eexists. split; [exact Ht|].
    constructor; [done|]. eapply Forall_impl; [exact Htools|].
    by intros [tr|? ?].
  - intros H. pose proof (chat_loop_grows _ _ _ _ H) as Hg'.
    destruct (IH _ H) as (new & Hn & Hsees).
    exists (ModelCall (messages a) :: tools ++ new). split.
    + rewrite Hn, Ht, <- app_assoc. done.
    + constructor; [simpl; by etrans|]. apply Forall_app. split; [|done].
      eapply Forall_impl; [exact Htools|]. by intros [tr|? ?].
Qed.

Lemma result_ids_of_assistant response :
  result_ids (assistant_message response) = [].
Proof.
  unfold result_ids, blocks_of. simpl.
  induction response as [|[t|id name input] rest IH]; done.
Qed.

Lemma result_ids_of_results uses fs :
  omap result_id (tool_results uses fs).1 = (λ u, u.1.1) <$> uses.
Proof.
  revert fs. induction uses as [|[[id name] input] rest IH]; intros fs; simpl; [done|].
  destruct (tool_outcome name input fs) as [s fs1]. specialize (IH fs1).
  destruct (tool_results rest fs1) as [results fs2]. simpl in *. by f_equal.
Qed.

Lemma chat_round_paired a :
  paired (messages a) → paired (messages (round_agent (chat_round client a))).
Proof.
  intros Hp. destruct (client (messages a)) as [response|e] eqn:Hc.
  - pose proof (paired_other _ _ Hp (result_ids_of_assistant response)) as Hp1.
    destruct (decide (tool_uses response = [])) as [Hn|Hn].
    + by rewrite (chat_round_reply _ _ _ Hc Hn).
    + rewrite (chat_round_again _ _ _ Hc Hn). simpl.
      apply paired_results; [done..|].
      unfold result_ids, use_ids. rewrite tool_uses_of_assistant.
      apply result_ids_of_results.
  - by rewrite (chat_round_raises _ _ _ Hc).
Qed.

Lemma chat_loop_paired fuel a reply a' :
  paired (messages a) → chat_loop client fuel a = Some (reply, a') →
  paired (messages a').
Proof.
  revert a. induction fuel as [|fuel IH]; intros a Hp; simpl; [done|].
  pose proof (chat_round_paired a Hp) as Hr.
  destruct (chat_round client a) as [r a1|a1]; simpl in Hr.
  - intros; by simplify_eq.
  - by apply IH.
Qed.

Lemma execute_tool_reads name (input : gmap string string) fs :
  name ≠ "edit_file" → (_execute_tool name input fs).2 = fs.
Proof.
  intros Hne. unfold _execute_tool, try_except.
  repeat case_decide; try done.
  - run_M. destruct (input !! "path") as [p|]; simpl; [|done].
    destruct (read_file_returns p fs) as [s ->]. done.
  - destruct (list_files_returns (get input "path" ".") fs) as [s ->]. done.
Qed.

Lemma tool_results_read_only uses fs :
  Forall (λ ev, ¬ edits ev) (invocation <$> uses) → (tool_results uses fs).2 = fs.
Proof.
  revert fs. induction uses as [|[[id name] input] rest IH]; intros fs; simpl; [done|].
  intros [Hne Hrest]%Forall_cons. simpl in Hne.
  pose proof (execute_tool_reads name input fs Hne) as He.
  rewrite tool_outcome_spec in He. simpl in He.
  destruct (tool_outcome name input fs) as [s fs1]. simpl in He. subst fs1.
  specialize (IH fs Hrest). by destruct (tool_results rest fs).
Qed.

Lemma chat_round_read_only a :
  ∃ new, trace (round_agent (chat_round client a)) = trace a ++ new ∧
    (Forall (λ ev, ¬ edits ev) new →
       files (round_agent (chat_round client a)) = files a).
Proof.
  destruct (client (messages a)) as [response|e] eqn:Hc.
  - destruct (decide (tool_uses response = [])) as [Hn|Hn].
    + rewrite (chat_round_reply _ _ _ Hc Hn). simpl. eauto.
    + rewrite (chat_round_again _ _ _ Hc Hn). simpl. eexists. split; [done|].
      intros [_ H]%Forall_cons. by apply tool_results_read_only.
  - rewrite (chat_round_raises _ _ _ Hc). simpl. eauto.
Qed.

Lemma chat_loop_read_only fuel a reply a' :
  chat_loop client fuel a = Some (reply, a') →
  ∃ new, trace a' = trace a ++ new ∧
    (Forall (λ ev, ¬ edits ev) new → files a' = files a).
Proof.
  revert a. induction fuel as [|fuel IH]; intros a; simpl; [done|].
  destruct (chat_round_read_only a) as (new1 & Ht & Hf).
  destruct (chat_round client a) as [r a1|a1]; simpl in Ht, Hf.
  - intros; simplify_eq. eauto.
  - intros (new2 & Ht2 & Hf2)%IH. exists (new1 ++ new2). split.
    + by rewrite Ht2, Ht, <- app_assoc.
    + intros [H1 H2]%Forall_app. rewrite (Hf2 H2). by apply Hf.
Qed.

End Conversation.

(** X11.  A turn of [chat] keeps the directory tree well formed, whatever
    the model asks the tools to do: every node still sits in a directory
    under a real name and the working directory is still there. *)
Theorem chat_keeps_tree_well_formed
    (client : list message → outcome (list response_block))
    (fuel : nat) (user_input : string) (a a' : agent) (reply : string) :
  wf (files a) →
  chat client fuel user_input a = Some (reply, a') →
  wf (files a').
Proof. apply chat_wf. Qed.

Lemma chat_keeps_tree_well_formed_witness :
  wf (files Sample.fresh) ∧
  ∃ a', chat Sample.scripted 5 "hello" Sample.fresh = Some ("done", a') ∧
        wf (files a').
Proof.
  split; [exact sample_tree_wf|].
  destruct (chat Sample.scripted 5 "hello" Sample.fresh) as [[reply a']|] eqn:E;
    [|vm_compute in E; discriminate E].
  assert (reply = "done") as ->.
  { vm_compute in E. injection E as <- _. reflexivity. }
  exists a'. split; [reflexivity|].
  exact (chat_keeps_tree_well_formed Sample.scripted 5 "hello" Sample.fresh a' "done"
           sample_tree_wf E).
Defined.

(** X12.  A turn of [chat] only appends: the transcript afterwards is the
    transcript before, then the user's input, then what the turn added; the
    first model call of the turn is handed exactly the old transcript with
    the user's input, and every model call of the turn is handed a
    beginning of the final transcript. *)
Theorem chat_only_appends
    (client : list message → outcome (list response_block))
    (fuel : nat) (user_input : string) (a a' : agent) (reply : string) :
  chat client fuel user_input a = Some (reply, a') →
  let asked := {| msg_role := user; msg_content := Plain user_input |} in
  (∃ more, messages a' = messages a ++ asked :: more) ∧
  (∃ calls, trace a' = trace a ++ ModelCall (messages a ++ [asked]) :: calls) ∧
  (∃ new, trace a' = trace a ++ new ∧ Forall (sees_prefix_of (messages a')) new).
Proof.
  intros H asked. unfold chat in H. split_and!.
  - apply chat_loop_grows in H as [more Hm]. simpl in Hm.
    exists more. by rewrite Hm, <- app_assoc.
  - by apply chat_loop_starts_with_call in H.
  - by apply chat_loop_calls in H.
Qed.

Lemma chat_only_appends_witness :
  ∃ a' more,
    chat Sample.scripted 5 "hello" Sample.greeted = Some ("错误: overloaded", a') ∧
    messages a' = messages Sample.greeted ++ Sample.hello :: more.
Proof.
  destruct (chat Sample.scripted 5 "hello" Sample.greeted) as [[reply a']|] eqn:E;
    [|vm_compute in E; discriminate E].
  assert (reply = "错误: overloaded") as ->.
  { vm_compute in E. injection E as <- _. reflexivity. }
  destruct (chat_only_appends Sample.scripted 5 "hello" Sample.greeted a' _ E)
    as [[more Hm] _].
  exists a', more. split; [reflexivity|exact Hm].
Defined.

(** X13.  The pairing of tool results with tool uses is an invariant of the
    transcript: if every message carrying tool results stands right after
    an assistant message that asked for exactly those ids, in that order,
    the same holds after a turn of [chat], however it ends. *)
Theorem chat_keeps_results_paired
    (client : list message → outcome (list response_block))
    (fuel : nat) (user_input : string) (a a' : agent) (reply : string) :
  paired (messages a) →
  chat client fuel user_input a = Some (reply, a') →
  paired (messages a').
Proof.
  intros Hp. unfold chat. apply chat_loop_paired. simpl.
  by apply paired_other.
Qed.

Lemma chat_keeps_results_paired_witness :
  paired (messages Sample.fresh) ∧
  ∃ a', chat Sample.scripted 5 "hello" Sample.fresh = Some ("done", a') ∧
        paired (messages a').
Proof.
  split; [constructor|].
  destruct (chat Sample.scripted 5 "hello" Sample.fresh) as [[reply a']|] eqn:E;
    [|vm_compute in E; discriminate E].
  assert (reply = "done") as ->.
  { vm_compute in E. injection E as <- _. reflexivity. }
  exists a'. split; [reflexivity|].
  exact (chat_keeps_results_paired Sample.scripted 5 "hello" Sample.fresh a' "done"
           paired_nil E).
Defined.

(** * Properties of the interactive session *)

Section SessionProofs.

Import Session.

Variable client : list message → outcome (list response_block).
Variables strip lower : string → string.
Variable fuel : nat.

Lemma chat_round_plain a :
  plain_inputs (messages (round_agent (chat_round client a))) =
    plain_inputs (messages a).
Proof.
  destruct (client (messages a)) as [response|e] eqn:Hc.
  - destruct (decide (tool_uses response = [])) as [Hn|Hn].
    + rewrite (chat_round_reply _ _ _ Hc Hn). simpl.
      unfold plain_inputs. rewrite omap_app. simpl. apply app_nil_r.
    + rewrite (chat_round_again _ _ _ Hc Hn). simpl.
      unfold plain_inputs. rewrite omap_app. simpl. apply app_nil_r.
  - by rewrite (chat_round_raises _ _ _ Hc).
Qed.

Lemma chat_plain n user_input a reply a' :
  chat client n user_input a = Some (reply, a') →
  plain_inputs (messages a') = plain_inputs (messages a) ++ [user_input].
Proof.
  unfold chat.
  assert (∀ a0, chat_loop client n a0 = Some (reply, a') →
                plain_inputs (messages a') = plain_inputs (messages a0)) as Hloop.
  { induction n as [|n IH]; intros a0; simpl; [done|].
    pose proof (chat_round_plain a0) as Hr.
    destruct (chat_round client a0) as [r a1|a1]; simpl in Hr.
    - intros; by simplify_eq.
    - intros H. rewrite <- Hr. by apply IH. }
  intros H. rewrite (Hloop _ H). simpl. unfold plain_inputs. by rewrite omap_app.
Qed.

Lemma repl_asks events c st :
  repl client strip lower fuel events c = Some st →
  plain_inputs (messages (session (console_of st))) =
    plain_inputs (messages (session c)) ++ asked_lines strip lower events.
Proof.
  revert c. induction events as [|[s| |] rest IH]; intros c; simpl.
  - intros [= <-]. simpl. by rewrite app_nil_r.
  - case_decide as Hx.
    + intros [= <-]. simpl. by rewrite app_nil_r.
    + destruct (PyStr.truthy (strip s)); simpl.
      * destruct (chat client fuel (strip s) (session c)) as [[response a]|] eqn:Hc;
          [|done].
        intros Hrun. rewrite (IH _ Hrun). simpl.
        rewrite (chat_plain _ _ _ _ _ Hc). by rewrite <- app_assoc.
      * intros Hrun. by rewrite (IH _ Hrun).
  - intros [= <-]. simpl. by rewrite app_nil_r.
  - intros Hrun. by rewrite (IH _ Hrun).
Qed.

Lemma repl_exits events c code c' :
  repl client strip lower fuel events c = Some (Exited code c') →
  code = 0 ∧ Exists (says_exit strip lower) events.
Proof.
  revert c. induction events as [|[s| |] rest IH]; intros c; simpl; [done|..].
  - case_decide as Hx.
    + intros [= <- <-]. split; [done|]. by left.
    + destruct (PyStr.truthy (strip s)); simpl.
      * destruct (chat client fuel (strip s) (session c)) as [[response a]|]; [|done].
        intros [? ?]%IH. split; [done|]. by right.
      * intros [? ?]%IH. split; [done|]. by right.
  - intros [= <- <-]. split; [done|]. by left.
  - intros [? ?]%IH. split; [done|]. by right.
Qed.

Lemma repl_idle events c :
  Forall (idle strip lower) events →
  ∃ out, repl client strip lower fuel events c =
           Some (AwaitingInput {| session := session c; stdout := stdout c ++ out |}).
Proof.
  revert c. induction events as [|[s| |] rest IH]; intros c; simpl.
  - intros _. by exists [prompt].
  - intros [[Hx Hs] Hrest]%Forall_cons. rewrite decide_False by done.
    rewrite Hs. simpl.
    destruct (IH (write prompt c) Hrest) as [out ->]. simpl.
    exists (prompt :: out). by rewrite <- app_assoc.
  - by intros [[] _]%Forall_cons.
  - intros [_ Hrest]%Forall_cons.
    destruct (IH (print "" (print (PyStr.nl +:+ "错误: " +:+ "EOF when reading a line")
                            (write prompt c))) Hrest) as [out ->].
    simpl. eexists. by rewrite <- !app_assoc.
Qed.

Lemma repl_keeps events c st :
  repl client strip lower fuel events c = Some st →
  messages (session c) `prefix_of` messages (session (console_of st)) ∧
  trace (session c) `prefix_of` trace (session (console_of st)) ∧
  stdout c `prefix_of` stdout (console_of st) ∧
  (wf (files (session c)) → wf (files (session (console_of st)))) ∧
  (paired (messages (session c)) → paired (messages (session (console_of st)))).
Proof.
  revert c. induction events as [|[s| |] rest IH]; intros c; simpl.
  - intros [= <-]. simpl. split_and!; try done. by apply prefix_app_r.
  - case_decide as Hx.
    + intros [= <-]. simpl. split_and!; try done.
      rewrite <- app_assoc. by apply prefix_app_r.
    + destruct (PyStr.truthy (strip s)); simpl.
      * destruct (chat client fuel (strip s) (session c)) as [[response a]|] eqn:Hc;
          [|done].
        intros (Hm & Ht & Ho & Hw & Hp)%IH. simpl in *.
        pose proof Hc as Hc'. unfold chat in Hc'.
        split_and!.
        -- etrans; [|exact Hm]. apply chat_loop_grows in Hc'. simpl in Hc'.
           etrans; [|exact Hc']. by apply prefix_app_r.
        -- etrans; [|exact Ht].
           apply chat_loop_read_only in Hc' as (new & -> & _). simpl.
           by apply prefix_app_r.
        -- etrans; [|exact Ho]. rewrite <- !app_assoc. by apply prefix_app_r.
        -- intros H0. apply Hw. by apply (chat_wf _ _ _ _ _ _ H0 Hc).
        -- intros H0. apply Hp.
           eapply chat_loop_paired; [|exact Hc']. simpl. by apply paired_other.
      * intros (Hm & Ht & Ho & Hw & Hp)%IH. simpl in *. split_and!; try done.
        etrans; [|exact Ho]. by apply prefix_app_r.
  - intros [= <-]. simpl. split_and!; try done.
    rewrite <- app_assoc. by apply prefix_app_r.
  - intros (Hm & Ht & Ho & Hw & Hp)%IH. simpl in *. split_and!; try done.
    etrans; [|exact Ho]. rewrite <- !app_assoc. by apply prefix_app_r.
Qed.

End SessionProofs.

(** X15.  Every line of a session that is not blank once stripped, and that
    comes before the first exit or quit line and the first interrupt, is
    put to the agent exactly once, stripped, in the order typed -- also
    when a turn ends in an error of the model; blank lines, the end of the
    input and everything after the session's end add nothing. *)
Theorem session_asks_each_line_once
    (client : list message → outcome (list response_block))
    (strip lower : string → string) (fuel : nat)
    (events : list Session.input_event) (c : Session.console)
    (st : Session.status) :
  Session.repl client strip lower fuel events c = Some st →
  plain_inputs (messages (Session.session (Session.console_of st))) =
    plain_inputs (messages (Session.session c)) ++ asked_lines strip lower events.
Proof. apply repl_asks. Qed.

Lemma session_asks_each_line_once_witness :
  let events := [Session.Line "  "; Session.EndOfFile; Session.Line " hello ";
                 Session.Line " EXIT"; Session.Line "never read"] in
  let c := {| Session.session := Sample.fresh; Session.stdout := [] |} in
  ∃ st,
    Session.repl Sample.scripted Keeps.strip Keeps.lower 5 events c = Some st ∧
    plain_inputs (messages (Session.session (Session.console_of st))) = ["hello"].
Proof.
  intros events c.
  destruct (Session.repl Sample.scripted Keeps.strip Keeps.lower 5 events c)
    as [st|] eqn:E; [|vm_compute in E; discriminate E].
  exists st. split; [reflexivity|].
  rewrite (session_asks_each_line_once _ _ _ _ _ _ _ E). reflexivity.
Defined.

(** X16.  The session ends only when a line says exit or quit (whatever its
    case and the blanks around it, as [strip] and [lower] decide) or on an
    interrupt, and then with status 0.  The end of the input does not end
    it: the loop prints the error and asks again. *)
Theorem session_ends_only_on_exit
    (client : list message → outcome (list response_block))
    (strip lower : string → string) (fuel : nat)
    (events : list Session.input_event) (c c' : Session.console) (code : nat) :
  Session.repl client strip lower fuel events c = Some (Session.Exited code c') →
  code = 0 ∧ Exists (Session.says_exit strip lower) events.
Proof. apply repl_exits. Qed.

Lemma session_ends_only_on_exit_witness :
  let events := [Session.EndOfFile; Session.Line " Quit "; Session.Line "more"] in
  let c := {| Session.session := Sample.fresh; Session.stdout := [] |} in
  ∃ c',
    Session.repl Sample.scripted Keeps.strip Keeps.lower 5 events c =
      Some (Session.Exited 0 c') ∧
    Exists (Session.says_exit Keeps.strip Keeps.lower) events.
Proof.
  intros events c.
  destruct (Session.repl Sample.scripted Keeps.strip Keeps.lower 5 events c)
    as [[c'|code c']|] eqn:E; [vm_compute in E; discriminate E| |vm_compute in E; discriminate E].
  destruct (session_ends_only_on_exit _ _ _ _ _ _ _ _ E) as [-> Hex].
  exists c'. split; [reflexivity|exact Hex].
Defined.

(** X17.  Blank lines and the end of the input ask nothing: after any
    number of them the program is waiting for input again, its agent
    exactly as it was -- no model call, no message, no file changed -- and
    what was printed before is still there. *)
Theorem idle_input_asks_nothing
    (client : list message → outcome (list response_block))
    (strip lower : string → string) (fuel : nat)
    (events : list Session.input_event) (c : Session.console) :
  Forall (idle strip lower) events →
  ∃ out,
    Session.repl client strip lower fuel events c =
      Some (Session.AwaitingInput
              {| Session.session := Session.session c;
                 Session.stdout := Session.stdout c ++ out |}).
Proof. apply repl_idle. Qed.

Lemma idle_input_asks_nothing_witness :
  let events := [Session.Line "   "; Session.EndOfFile; Session.EndOfFile] in
  let c := {| Session.session := Sample.fresh; Session.stdout := [] |} in
  Forall (idle Keeps.strip Keeps.lower) events ∧
  ∃ out,
    Session.repl Sample.scripted Keeps.strip Keeps.lower 5 events c =
      Some (Session.AwaitingInput
              {| Session.session := Sample.fresh; Session.stdout := out |}).
Proof.
  intros events c.
  assert (Forall (idle Keeps.strip Keeps.lower) events) as Hidle.
  { repeat first [apply Forall_nil_2 | apply Forall_cons_2]; simpl; try exact I.
    split; [|reflexivity]. rewrite !not_elem_of_cons.
    split_and!; [discriminate..|apply not_elem_of_nil]. }
  split; [exact Hidle|].
  destruct (idle_input_asks_nothing Sample.scripted Keeps.strip Keeps.lower 5
              events c Hidle) as [out E].
  exists out. exact E.
Defined.

(** X18.  Through a whole session the agent only gains: the transcript, the
    trace of calls and the output only grow at the end, a well-formed tree
    stays well formed, and a transcript whose tool results are paired with
    tool uses stays so -- the state of one turn is the start of the next. *)
Theorem session_only_appends
    (client : list message → outcome (list response_block))
    (strip lower : string → string) (fuel : nat)
    (events : list Session.input_event) (c : Session.console)
    (st : Session.status) :
  Session.repl client strip lower fuel events c = Some st →
  messages (Session.session c) `prefix_of`
    messages (Session.session (Session.console_of st)) ∧
  trace (Session.session c) `prefix_of`
    trace (Session.session (Session.console_of st)) ∧
  Session.stdout c `prefix_of` Session.stdout (Session.console_of st) ∧
  (wf (files (Session.session c)) →
     wf (files (Session.session (Session.console_of st)))) ∧
  (paired (messages (Session.session c)) →
     paired (messages (Session.session (Session.console_of st)))).
Proof. apply repl_keeps. Qed.

Lemma session_only_appends_witness :
  let events := [Session.Line "hello"; Session.Line "again"] in
  let c := {| Session.session := Sample.fresh; Session.stdout := [] |} in
  ∃ st,
    Session.repl Sample.scripted Keeps.strip Keeps.lower 5 events c = Some st ∧
    wf (files (Session.session (Session.console_of st))).
Proof.
  intros events c.
  destruct (Session.repl Sample.scripted Keeps.strip Keeps.lower 5 events c)
    as [st|] eqn:E; [|vm_compute in E; discriminate E].
  exists st. split; [reflexivity|].
  destruct (session_only_appends _ _ _ _ _ _ _ E) as (_ & _ & _ & Hwf & _).
  exact (Hwf sample_tree_wf).
Defined.

(** X19.  The key [main] goes by is the flag when the flag is given and
    not empty, whatever the environment holds, and otherwise the
    environment variable.  [main] ends with status 1 exactly when that
    leaves no key -- the flag absent or empty and the variable absent or
    empty -- and then it has printed the one error line and called the
    model not at all; with a key the session starts from an empty
    transcript. *)
Theorem main_needs_api_key
    (client : list message → outcome (list response_block))
    (strip lower : string → string) (fuel : nat)
    (flag env : option string) (fs : filesystem)
    (events : list Session.input_event) :
  let fresh := {| messages := []; files := fs; trace := [] |} in
  (∀ k, flag = Some k → k ≠ "" → Session.api_key_of flag env = Some k) ∧
  (flag = None ∨ flag = Some "" → Session.api_key_of flag env = env) ∧
  (Session.missing (Session.api_key_of flag env) = false ↔
     ∃ k, k ≠ "" ∧
       (flag = Some k ∨ ((flag = None ∨ flag = Some "") ∧ env = Some k))) ∧
  (Session.missing (Session.api_key_of flag env) = true →
     ∃ line,
       Session.main client strip lower fuel flag env fs events =
         Some (Session.Exited 1
                 {| Session.session := fresh; Session.stdout := [line] |})) ∧
  (Session.missing (Session.api_key_of flag env) = false →
     Session.main client strip lower fuel flag env fs events =
       Session.repl client strip lower fuel events
         (Session.banner {| Session.session := fresh; Session.stdout := [] |})) ∧
  (∀ code c,
     Session.main client strip lower fuel flag env fs events =
       Some (Session.Exited code c) →
     (code = 1 ↔ Session.missing (Session.api_key_of flag env) = true)).
Proof.
  intros fresh. split_and!.
  - intros k -> Hk. by destruct k.
  - by intros [->| ->].
  - destruct flag as [[|a k]|], env as [[|b k']|]; simpl; split; try done;
      try (intros (k0 & Hk & [?|[[?|?] ?]]); by simplify_eq).
    + intros _. exists (String b k'). split; [done|]. right. auto.
    + intros _. exists (String a k). split; [done|]. by left.
    + intros _. exists (String a k). split; [done|]. by left.
    + intros _. exists (String a k). split; [done|]. by left.
    + intros _. exists (String b k'). split; [done|]. right. auto.
  - intros Hm. unfold Session.main. rewrite Hm. eauto.
  - intros Hm. unfold Session.main. by rewrite Hm.
  - intros code c. unfold Session.main.
    destruct (Session.missing (Session.api_key_of flag env)).
    + intros [= <- _]. done.
    + intros [-> _]%repl_exits. done.
Qed.

Lemma main_needs_api_key_witness :
  Session.api_key_of (Some "from-flag") (Some "from-env") = Some "from-flag" ∧
  Session.api_key_of (Some "") (Some "from-env") = Some "from-env" ∧
  Session.missing (Session.api_key_of (Some "") None) = true ∧
  ∃ c, Session.main Sample.scripted Keeps.strip Keeps.lower 5 (Some "") None
         Sample.tree [Session.Line "hello"] = Some (Session.Exited 1 c) ∧
       trace (Session.session c) = [].
Proof.
  destruct (main_needs_api_key Sample.scripted Keeps.strip Keeps.lower 5
              (Some "from-flag") (Some "from-env") Sample.tree [])
    as (Hflag & _).
  destruct (main_needs_api_key Sample.scripted Keeps.strip Keeps.lower 5
              (Some "") (Some "from-env") Sample.tree [])
    as (_ & Henv & _).
  split; [exact (Hflag "from-flag" eq_refl ltac:(discriminate))|].
  split; [exact (Henv (or_intror eq_refl))|].
  split; [reflexivity|].
  destruct (main_needs_api_key Sample.scripted Keeps.strip Keeps.lower 5
              (Some "") None Sample.tree [Session.Line "hello"])
    as (_ & _ & _ & Hmiss & _).
  destruct (Hmiss eq_refl) as [line E]. eexists. split; [exact E|reflexivity].
Defined.
